(** * Technique recommendation filter (src/lib/uxTechniques.ts)

    A shallow embedding of [getFilteredTechniques] and of the helpers it
    closes over, followed by the properties of the recommendation engine.

    Conventions of the embedding:
    - a JavaScript string is a [string]; [===] on strings and
      [Array.prototype.includes] on string arrays are [String.eqb];
    - a value that may be [undefined] or [null] is an [option];
    - the [recommendations] object is a finite map from its own property
      names to arrays, and a property read that misses the own properties
      falls through to [Object.prototype], as it does for an object literal;
    - a call that raises is a [completion] carrying the error. *)

From Stdlib Require Import String Ascii List Bool Arith Lia.
From Stdlib Require QArith Qround Sorted.
From stdpp Require Import base option list strings gmap.
Import ListNotations.

Local Open Scope string_scope.
Local Open Scope list_scope.

(** ** The JavaScript primitives the function relies on *)

Module JS.

(** Outcome of running a piece of code: a value, or a thrown error. *)
Inductive error : Type := TypeError.

Inductive completion (A : Type) : Type :=
| Normal (a : A)
| Throw (e : error).
Arguments Normal {A} a.
Arguments Throw {A} e.

Definition bind {A B : Type} (c : completion A) (k : A -> completion B)
  : completion B :=
  match c with
  | Normal a => k a
  | Throw e => Throw e
  end.

(** [arr.forEach(cb)] where the callback updates a state and may throw:
    the first exception leaves the loop. *)
Fixpoint forEach {S A : Type} (cb : S -> A -> completion S)
         (arr : list A) (s : S) : completion S :=
  match arr with
  | [] => Normal s
  | x :: rest => bind (cb s x) (forEach cb rest)
  end.

(** [arr.some(p)] and [arr.includes(x)] on arrays of strings. *)
Definition some {A : Type} (p : A -> bool) (arr : list A) : bool :=
  existsb p arr.

Definition includes (arr : list string) (x : string) : bool :=
  existsb (String.eqb x) arr.

(** [String.prototype.toLowerCase] on strings of ASCII characters: the
    letters A-Z become a-z and nothing else changes. Characters beyond
    ASCII, which JavaScript maps by the Unicode tables, are outside this
    model; the statements about letter case below are about strings of
    ASCII characters ([asciiString]). *)
Definition lowerAscii (c : ascii) : ascii :=
  let n := nat_of_ascii c in
  if Nat.leb 65 n && Nat.leb n 90 then ascii_of_nat (n + 32) else c.

Fixpoint toLowerCase (s : string) : string :=
  match s with
  | EmptyString => EmptyString
  | String c rest => String (lowerAscii c) (toLowerCase rest)
  end.

(** Truthiness of an optional string and of an optional boolean:
    [undefined], [null], the empty string and [false] are falsy. *)
Definition truthyString (v : option string) : bool :=
  match v with
  | Some s => negb (String.eqb s "")
  | None => false
  end.

Definition truthyBool (v : option bool) : bool :=
  match v with
  | Some b => b
  | None => false
  end.

(** The property names every object literal inherits from
    [Object.prototype]. Each of them reads as a function (or, for
    [__proto__], as the prototype object): a truthy value that is not an
    array and has no [find] method. *)
Definition objectPrototypeKeys : list string :=
  [ "constructor"; "hasOwnProperty"; "isPrototypeOf";
    "propertyIsEnumerable"; "toLocaleString"; "toString"; "valueOf";
    "__proto__"; "__defineGetter__"; "__defineSetter__";
    "__lookupGetter__"; "__lookupSetter__" ].

Definition isInherited (key : string) : bool :=
  includes objectPrototypeKeys key.

End JS.
Import JS.

(** ** Data model *)

(** [interface TechniqueDetail]. The tag arrays that the function tests for
    presence before use ([tech.user_base ? ...], [!techArray]) are optional;
    [project_types] is used unguarded and is an array, as declared. *)
Record TechniqueDetail : Type := {
  name : string;
  slug : string;
  stage : string;
  outcomes : option (list string);
  output_types : option (list string);
  device_types : option (list string);
  project_types : list string;
  user_base : option (list string)
}.

(** The fields of [Requirement] (supabaseClient.ts, [RequirementSchema])
    that the filter reads; the identity and free-text fields are never
    inspected by it. *)
Record Requirement : Type := {
  output_type : option (list string);
  outcome : option (list string);
  device_type : option (list string);
  project_type : option string;
  existing_users : option bool
}.

(** An element of a result array: [{ name, slug }]. *)
Module Rec.
Record t : Type := mk { name : string; slug : string }.
End Rec.

(** The own properties of the [recommendations] object. *)
Abbreviation Recommendations := (gmap string (list Rec.t)).

(** What [recommendations[key]] evaluates to. *)
Inductive propValue : Type :=
| OwnArray (arr : list Rec.t)
| InheritedValue
| Undefined.

Definition getProp (recommendations : Recommendations) (key : string)
  : propValue :=
  match recommendations !! key with
  | Some arr => OwnArray arr
  | None => if isInherited key then InheritedValue else Undefined
  end.

(** ** The function *)

Definition allStages : list string :=
  ["Discover"; "Define"; "Design"; "Develop"; "Deliver"].

Definition earlyStages : list string := ["Discover"; "Define"; "Design"].

(** The object literal the function starts from. *)
Definition initialRecommendations : Recommendations :=
  <["Deliver" := []]> (<["Develop" := []]> (<["Design" := []]>
    (<["Define" := []]> (<["Discover" := []]> ∅)))).

(** [!arr || arr.length === 0] *)
Definition absentOrEmpty (arr : option (list string)) : bool :=
  match arr with
  | None => true
  | Some l => Nat.eqb (length l) 0
  end.

(** The tags an optional array holds. *)
Definition tags (arr : option (list string)) : list string :=
  default [] arr.

Definition doArraysIntersect (reqArray techArray : option (list string))
  : bool :=
  if absentOrEmpty reqArray then true
  else if absentOrEmpty techArray then true
  else some (fun item => includes (tags techArray) item) (tags reqArray).

Definition projectTypeMatch (requirement : Requirement)
           (tech : TechniqueDetail) : bool :=
  if truthyString (project_type requirement)
  then some (fun pType =>
               String.eqb (toLowerCase pType)
                          (toLowerCase (default "" (project_type requirement))))
            (project_types tech)
  else true.

Definition userContext (requirement : Requirement) : string :=
  if truthyBool (existing_users requirement) then "existing" else "new".

Definition userBaseMatch (requirement : Requirement)
           (tech : TechniqueDetail) : bool :=
  match user_base tech with
  | Some ub => includes ub (userContext requirement)
  | None => true
  end.

Definition outcomeMatch (requirement : Requirement)
           (tech : TechniqueDetail) : bool :=
  doArraysIntersect (outcome requirement) (outcomes tech).

Definition deviceTypeMatch (requirement : Requirement)
           (tech : TechniqueDetail) : bool :=
  doArraysIntersect (device_type requirement) (device_types tech).

Definition isEarlyStage (tech : TechniqueDetail) : bool :=
  includes earlyStages (stage tech).

Definition outputTypeMatch (requirement : Requirement)
           (tech : TechniqueDetail) : bool :=
  isEarlyStage tech
  || doArraysIntersect (output_type requirement) (output_types tech).

(** The condition of the outer [if] of the loop body. *)
Definition allCriteria (requirement : Requirement)
           (tech : TechniqueDetail) : bool :=
  projectTypeMatch requirement tech && outcomeMatch requirement tech
  && deviceTypeMatch requirement tech && outputTypeMatch requirement tech
  && userBaseMatch requirement tech.

Definition entryOf (tech : TechniqueDetail) : Rec.t :=
  Rec.mk (name tech) (slug tech).

(** [arr.find(t => t.name === n)] is truthy. *)
Definition hasName (arr : list Rec.t) (n : string) : bool :=
  existsb (fun t => String.eqb (Rec.name t) n) arr.

(** The body of [allTechniques.forEach(tech => ...)]. Reading
    [recommendations[tech.stage]] yields an own array, [undefined]
    (falsy: the entry is skipped), or an inherited non-array value, on
    which the call of [.find] raises a [TypeError]. *)
Definition visit (requirement : Requirement)
           (recommendations : Recommendations) (tech : TechniqueDetail)
  : completion Recommendations :=
  if allCriteria requirement tech then
    match getProp recommendations (stage tech) with
    | Undefined => Normal recommendations
    | InheritedValue => Throw TypeError
    | OwnArray arr =>
        if hasName arr (name tech) then Normal recommendations
        else Normal (<[stage tech := arr ++ [entryOf tech]]> recommendations)
    end
  else Normal recommendations.

(** The body of [allStages.forEach(stage => ...)]. *)
Definition ensureStage (recommendations : Recommendations) (stage : string)
  : Recommendations :=
  match getProp recommendations stage with
  | Undefined => <[stage := []]> recommendations
  | _ => recommendations
  end.

(** [getFilteredTechniques], with the catalog [allTechniques] (the content
    of the data file uxTechniqueDetails.json) as a parameter. The argument
    is optional because the function guards against a missing
    requirement. *)
Definition getFilteredTechniques (allTechniques : list TechniqueDetail)
           (requirement : option Requirement)
  : completion Recommendations :=
  match requirement with
  | None => Normal initialRecommendations
  | Some req =>
      bind (forEach (visit req) allTechniques initialRecommendations)
           (fun recommendations =>
              Normal (foldl ensureStage recommendations allStages))
  end.

(** ** The lenient-intersection rule *)

(** The rule as the specification words it: either set is empty, or the
    two sets share at least one tag. *)
Definition lenientIntersection (selected offered : list string) : Prop :=
  selected = [] \/ offered = [] \/ exists tag, tag ∈ selected /\ tag ∈ offered.

(** ** The result of the loop, stage by stage *)

(** One guarded [push]: what the inner [if] does to the array of a stage. *)
Definition pushNew (arr : list Rec.t) (e : Rec.t) : list Rec.t :=
  if hasName arr (Rec.name e) then arr else arr ++ [e].

(** The entries of the techniques filed under [key] that meet all five
    criteria, in catalog order. *)
Definition candidates (requirement : Requirement) (key : string)
           (allTechniques : list TechniqueDetail) : list Rec.t :=
  map entryOf
      (filter (fun tech => allCriteria requirement tech = true
                           /\ stage tech = key) allTechniques).

(** The array a stage ends up with. *)
Definition stageList (requirement : Requirement) (key : string)
           (allTechniques : list TechniqueDetail) : list Rec.t :=
  foldl pushNew [] (candidates requirement key allTechniques).

(** How often a name occurs in a result array. *)
Definition countName (n : string) (arr : list Rec.t) : nat :=
  length (List.filter (fun e => String.eqb (Rec.name e) n) arr).

(** No technique of the catalog is filed under a name that an object
    literal inherits; in particular every catalog whose [stage] values are
    among the five stages satisfies it. *)
Definition stagesSafe (allTechniques : list TechniqueDetail) : Prop :=
  Forall (fun tech => isInherited (stage tech) = false) allTechniques.

(** ** Letter case *)

(** A string of ASCII characters. *)
Definition asciiString (s : string) : Prop :=
  Forall (fun c => nat_of_ascii c < 128) (list_ascii_of_string s).

(** A capital letter, A to Z. *)
Definition isCapital (c : ascii) : Prop :=
  65 <= nat_of_ascii c /\ nat_of_ascii c <= 90.

(** Two characters that are equal, or a capital letter and its small
    letter in either order (the small letter is 32 places further). *)
Definition caseVariants (c d : ascii) : Prop :=
  c = d
  \/ (isCapital c /\ nat_of_ascii d = nat_of_ascii c + 32)
  \/ (isCapital d /\ nat_of_ascii c = nat_of_ascii d + 32).

(** Equality of strings up to the case of their letters, stated character
    by character and without reference to [toLowerCase]. *)
Fixpoint equalIgnoringCase (a b : string) : Prop :=
  match a, b with
  | EmptyString, EmptyString => True
  | String c a', String d b' => caseVariants c d /\ equalIgnoringCase a' b'
  | _, _ => False
  end.

(** ** Sample data *)

Definition noSelection : Requirement :=
  {| output_type := Some []; outcome := Some []; device_type := Some [];
     project_type := None; existing_users := None |}.

Definition userInterviews : TechniqueDetail :=
  {| name := "User Interviews"; slug := "user-interviews";
     stage := "Discover"; outcomes := Some ["Qualitative"];
     output_types := Some []; device_types := Some [];
     project_types := ["New"; "Old"];
     user_base := Some ["new"; "existing"] |}.

Definition scenarioRequirement : Requirement :=
  {| output_type := Some ["Mobile App"]; outcome := Some ["Qualitative"];
     device_type := Some ["Mobile"]; project_type := Some "new";
     existing_users := Some false |}.


(** The two techniques and requirements of the output-type examples. *)
Definition discoverMobile : TechniqueDetail :=
  {| name := "Field Study"; slug := "field-study"; stage := "Discover";
     outcomes := Some []; output_types := Some ["Mobile App"];
     device_types := Some []; project_types := ["New"; "Old"];
     user_base := Some ["new"; "existing"] |}.

Definition deliverMobile : TechniqueDetail :=
  {| name := "Beta Launch"; slug := "beta-launch"; stage := "Deliver";
     outcomes := Some []; output_types := Some ["Mobile App"];
     device_types := Some []; project_types := ["New"; "Old"];
     user_base := Some ["new"; "existing"] |}.

Definition kioskRequirement : Requirement :=
  {| output_type := Some ["Kiosk"]; outcome := Some [];
     device_type := Some []; project_type := None;
     existing_users := None |}.

Definition desktopRequirement : Requirement :=
  {| output_type := Some ["Desktop Software"]; outcome := Some [];
     device_type := Some []; project_type := None;
     existing_users := None |}.

(** A technique for new projects only, and a requirement that spells the
    project type in lower case. *)
Definition newOnly : TechniqueDetail :=
  {| name := "Concept Testing"; slug := "concept-testing";
     stage := "Define"; outcomes := Some []; output_types := Some [];
     device_types := Some []; project_types := ["New"];
     user_base := None |}.

Definition lowerCaseNew : Requirement :=
  {| output_type := Some []; outcome := Some []; device_type := Some [];
     project_type := Some "new"; existing_users := None |}.

(** A technique whose [user_base] is present and empty. *)
Definition emptyUserBase : TechniqueDetail :=
  {| name := "Diary Study"; slug := "diary-study"; stage := "Discover";
     outcomes := Some []; output_types := Some []; device_types := Some [];
     project_types := ["New"; "Old"]; user_base := Some [] |}.

(** A technique for projects that already have users. *)
Definition existingOnly : TechniqueDetail :=
  {| name := "Analytics Review"; slug := "analytics-review";
     stage := "Discover"; outcomes := Some []; output_types := Some [];
     device_types := Some []; project_types := ["New"; "Old"];
     user_base := Some ["existing"] |}.

(** Two catalog entries of one name in one stage, told apart by their
    output types and slugs, and a requirement that selects the second. *)
Definition cardSortingMobile : TechniqueDetail :=
  {| name := "Card Sorting"; slug := "card-sorting"; stage := "Develop";
     outcomes := Some []; output_types := Some ["Mobile App"];
     device_types := Some []; project_types := ["New"; "Old"];
     user_base := None |}.

Definition cardSortingWeb : TechniqueDetail :=
  {| name := "Card Sorting"; slug := "card-sorting-web"; stage := "Develop";
     outcomes := Some []; output_types := Some ["Web App"];
     device_types := Some []; project_types := ["New"; "Old"];
     user_base := None |}.

Definition webRequirement : Requirement :=
  {| output_type := Some ["Web App"]; outcome := Some [];
     device_type := Some []; project_type := None;
     existing_users := None |}.

(** A catalog entry filed under a name that is no stage but a property
    every object inherits. *)
Definition constructorStage : TechniqueDetail :=
  {| name := "Guerrilla Testing"; slug := "guerrilla-testing";
     stage := "constructor"; outcomes := Some []; output_types := Some [];
     device_types := Some []; project_types := ["New"; "Old"];
     user_base := Some ["new"; "existing"] |}.

(** ** The engine seen from its callers *)

(** The catalog holds a technique that meets the criteria of the
    requirement and is filed under an inherited property name. *)
Definition raisesOn (requirement : Requirement)
           (allTechniques : list TechniqueDetail) : Prop :=
  Exists (fun tech => allCriteria requirement tech = true
                      /\ isInherited (stage tech) = true) allTechniques.

(** [allTechniqueMetadata.find(t => t.slug === techniqueSlug)] of the
    technique page, which the links of the recommendation list lead to. *)
Definition findBySlug (allTechniqueMetadata : list TechniqueDetail)
           (techniqueSlug : string) : option TechniqueDetail :=
  List.find (fun t => String.eqb (slug t) techniqueSlug) allTechniqueMetadata.

(** One selection is at least as wide as another: both are empty, or the
    first holds a tag and every tag of the first is in the second. *)
Definition widens (narrow wide : option (list string)) : Prop :=
  (tags narrow = [] /\ tags wide = [])
  \/ (tags narrow <> [] /\ tags narrow ⊆ tags wide).

(** ** The tag checkboxes of the requirements form (requirements/page.tsx) *)

(** [onCheckedChange] of the checkbox of [item], applied to the current
    [field.value]; the result is what [field.onChange] receives:
    [checked ? [...(field.value || []), item]
             : field.value?.filter((value) => value !== item)]. *)
Definition onCheckedChange (value : option (list string)) (item : string)
           (checked : bool) : option (list string) :=
  if checked then Some (default [] value ++ [item])
  else List.filter (fun v => negb (String.eqb v item)) <$> value.

(** [checked={field.value?.includes(item)}]; [undefined] shows as
    unchecked. *)
Definition isChecked (value : option (list string)) (item : string) : bool :=
  match value with
  | Some v => includes v item
  | None => false
  end.

(** ** The project search of the dashboard (dashboard/layout.tsx) *)

(** The fields of a project row that the search reads. *)
Module Project.
Record t : Type := mk { id : string; project_name : option string }.
End Project.

(** [s.includes(search)] on strings: [search] occurs in [s]. *)
Fixpoint stringIncludes (s search : string) : bool :=
  String.prefix search s
  || match s with
     | EmptyString => false
     | String _ rest => stringIncludes rest search
     end.

(** [projects.filter(project =>
      project.project_name?.toLowerCase().includes(searchTerm.toLowerCase()))] *)
Definition filteredProjects (projects : list Project.t) (searchTerm : string)
  : list Project.t :=
  List.filter
    (fun project =>
       match Project.project_name project with
       | Some n => stringIncludes (toLowerCase n) (toLowerCase searchTerm)
       | None => false
       end)
    projects.

(** ** The display name of the sidebar (components/Sidebar.tsx) *)

(** [String.prototype.toUpperCase] of one ASCII character: the letters
    a-z become A-Z and nothing else changes. Characters beyond ASCII are
    outside this model; the statement about capitalised words below is
    about words of ASCII characters ([asciiString]). *)
Definition upperAscii (c : ascii) : ascii :=
  let n := nat_of_ascii c in
  if Nat.leb 97 n && Nat.leb n 122 then ascii_of_nat (n - 32) else c.

(** [s.split(sep)] for a separator that matches single characters: the
    pieces between the separators, empty pieces included, and one piece
    for the empty string. *)
Fixpoint splitOn (isSep : ascii -> bool) (s : string) : list string :=
  match s with
  | EmptyString => [EmptyString]
  | String c rest =>
      let parts := splitOn isSep rest in
      if isSep c then EmptyString :: parts
      else String c (hd EmptyString parts) :: tl parts
  end.

(** The separator ['@'] and the class [/[._-]/]. *)
Definition isAt (c : ascii) : bool := Ascii.eqb c "@".

Definition isNameSeparator (c : ascii) : bool :=
  Ascii.eqb c "." || Ascii.eqb c "_" || Ascii.eqb c "-".

(** [part.charAt(0).toUpperCase() + part.slice(1)] *)
Definition capitalize (part : string) : string :=
  match part with
  | EmptyString => EmptyString
  | String c rest => String (upperAscii c) rest
  end.

Definition deriveNameFromEmail (email : string) : string :=
  let namePart := hd EmptyString (splitOn isAt email) in
  String.concat " " (map capitalize (splitOn isNameSeparator namePart)).

(** A small letter, a to z. *)
Definition isSmall (c : ascii) : Prop :=
  97 <= nat_of_ascii c /\ nat_of_ascii c <= 122.

(** [C] is the capital of the small letter [c], or [c] itself when [c] is
    no small letter: stated without reference to [upperAscii]. *)
Definition capitalOf (c C : ascii) : Prop :=
  (isSmall c /\ nat_of_ascii C + 32 = nat_of_ascii c)
  \/ (~ isSmall c /\ C = c).

(** [shown] is [word] with its first character replaced by its capital. *)
Definition capitalizedWord (word shown : string) : Prop :=
  match word, shown with
  | EmptyString, EmptyString => True
  | String c tail, String C tail' => capitalOf c C /\ tail' = tail
  | _, _ => False
  end.

(** A local part: a first word, then separators each followed by a word. *)
Fixpoint joinWords (word : string) (rest : list (ascii * string)) : string :=
  match rest with
  | [] => word
  | (sep, next) :: rest' => word +:+ String sep (joinWords next rest')
  end.

(** ** The password generator (services/password-generator.ts) *)

Definition lowerCaseChars : string := "abcdefghijklmnopqrstuvwxyz".
Definition upperCaseChars : string := "ABCDEFGHIJKLMNOPQRSTUVWXYZ".
Definition numberChars : string := "0123456789".
Definition symbolChars : string := "!@#$%^&*()_+-=[]{}|;:,.<>?".

(** The value of [charSet] when the loop starts. *)
Definition charSetFor (useSymbols useNumbers : bool) : string :=
  let charSet := lowerCaseChars +:+ upperCaseChars in
  let charSet := if useNumbers then charSet +:+ numberChars else charSet in
  if useSymbols then charSet +:+ symbolChars else charSet.

(** [password += charSet[randomIndex]]: an index past the end reads
    [undefined], which [+=] spells out. *)
Definition appendCharAt (password charSet : string) (randomIndex : nat)
  : string :=
  match String.get randomIndex charSet with
  | Some c => password +:+ String c EmptyString
  | None => password +:+ "undefined"
  end.

(** The loop [for (let i = 0; i < length; i++)], with the iterations left
    to run as the decreasing argument. [randomIndex i] is the value of
    [Math.floor(Math.random() * charSet.length)] in iteration [i]. *)
Fixpoint passwordLoop (charSet : string) (randomIndex : nat -> nat)
         (i iterations : nat) (password : string) : string :=
  match iterations with
  | O => password
  | S remaining =>
      passwordLoop charSet randomIndex (S i) remaining
                   (appendCharAt password charSet (randomIndex i))
  end.

(** [generatePassword]. The length is a number, here a rational: the
    condition [i < length] holds for the [⌈length⌉] first naturals when
    [length] is positive and for none otherwise. *)
Definition generatePassword (randomIndex : nat -> nat)
           (length : QArith_base.Q) (useSymbols useNumbers : bool) : string :=
  passwordLoop (charSetFor useSymbols useNumbers) randomIndex 0
               (Z.to_nat (Qround.Qceiling length)) EmptyString.

(** ** The checklists of the technique page
       (dashboard/portfolio/[id]/page.tsx, [ChecklistSection]) *)

(** An item of [prerequisites] or [executionSteps]. *)
Module Item.
Record t : Type := mk { id : string; text : string; checked : bool }.
End Item.

(** [watchedItems.map((item, index) => (item.checked ? index : -1))
                 .filter(index => index !== -1)] *)
Definition selectedIndices (watchedItems : list Item.t) : list Z :=
  List.filter (fun index => negb (Z.eqb index (-1)))
              (imap (fun index item =>
                       if Item.checked item then Z.of_nat index else (-1)%Z)
                    watchedItems).

(** [handleSelectAll]: every [checked] field of the list is set to the
    state of the Select All box. *)
Definition handleSelectAll (watchedItems : list Item.t) (checked : bool)
  : list Item.t :=
  map (fun item => Item.mk (Item.id item) (Item.text item) checked)
      watchedItems.

Definition isAllSelected (watchedItems : list Item.t) : bool :=
  Nat.ltb 0 (length watchedItems)
  && Nat.eqb (length (selectedIndices watchedItems)) (length watchedItems).

Definition showActions (watchedItems : list Item.t) : bool :=
  Nat.ltb 0 (length (selectedIndices watchedItems)).

(** The [disabled] property of the Delete button. *)
Definition deleteDisabled (watchedItems : list Item.t) : bool :=
  Nat.ltb 0 (length watchedItems)
  && Nat.eqb (length (selectedIndices watchedItems)) (length watchedItems).

(** ** The recommendation list of the project page
       (dashboard/[id]/edit/page.tsx, [FiveDProcess]) *)

(** [!techniques || Object.keys(techniques).length === 0]: the page shows
    "No techniques to display." *)
Definition nothingToDisplay (techniques : option Recommendations) : bool :=
  match techniques with
  | None => true
  | Some t => Nat.eqb (size t) 0
  end.

(** [stageTechs.length > 0]: the techniques of the stage are listed;
    otherwise the stage shows "No specific techniques recommended". *)
Definition stageHasTechniques (stageTechs : list Rec.t) : bool :=
  Nat.ltb 0 (length stageTechs).

(** Membership of a given string in a given list. *)
Ltac list_member := simpl; repeat constructor.

(** A given string is made of ASCII characters. *)
Ltac ascii_string :=
  unfold asciiString; simpl;
  repeat (constructor; [vm_compute; lia|]); constructor.

(** ** Facts about the primitives *)

Lemma includes_true (arr : list string) (x : string) :
  includes arr x = true <-> x ∈ arr.
Proof.
  unfold includes. rewrite existsb_exists, list_elem_of_In. split.
  - intros [y [Hy Heq]]. apply String.eqb_eq in Heq. by subst.
  - intros Hx. exists x. split; [done | apply String.eqb_refl].
Qed.

Lemma includes_false (arr : list string) (x : string) :
  includes arr x = false <-> x ∉ arr.
Proof.
  rewrite <- includes_true. destruct (includes arr x); split; congruence.
Qed.

Lemma some_true {A : Type} (p : A -> bool) (arr : list A) :
  some p arr = true <-> exists x, x ∈ arr /\ p x = true.
Proof.
  unfold some. rewrite existsb_exists.
  split; intros [x [H1 H2]]; exists x; split; try done;
    by apply list_elem_of_In.
Qed.

Lemma absentOrEmpty_true (arr : option (list string)) :
  absentOrEmpty arr = true <-> tags arr = [].
Proof.
  destruct arr as [[|x l]|]; simpl; split; congruence.
Qed.

Lemma hasName_true (arr : list Rec.t) (n : string) :
  hasName arr n = true <-> n ∈ map Rec.name arr.
Proof.
  unfold hasName. rewrite existsb_exists, list_elem_of_In, in_map_iff.
  split; intros [e [H1 H2]]; exists e.
  - apply String.eqb_eq in H2. done.
  - split; [done | by apply String.eqb_eq].
Qed.

Lemma hasName_false (arr : list Rec.t) (n : string) :
  hasName arr n = false <-> n ∉ map Rec.name arr.
Proof.
  rewrite <- hasName_true. destruct (hasName arr n); split; congruence.
Qed.

(** ** The lenient-intersection rule *)

Lemma doArraysIntersect_lenient (reqArray techArray : option (list string)) :
  doArraysIntersect reqArray techArray = true
  <-> lenientIntersection (tags reqArray) (tags techArray).
Proof.
  unfold doArraysIntersect, lenientIntersection.
  destruct (absentOrEmpty reqArray) eqn:Hr.
  { apply absentOrEmpty_true in Hr. tauto. }
  destruct (absentOrEmpty techArray) eqn:Ht.
  { apply absentOrEmpty_true in Ht. tauto. }
  assert (tags reqArray <> []) as Hr'
    by (rewrite <- absentOrEmpty_true; congruence).
  assert (tags techArray <> []) as Ht'
    by (rewrite <- absentOrEmpty_true; congruence).
  rewrite some_true. split.
  - intros [x [Hx Hin]]. apply includes_true in Hin. eauto.
  - intros [?|[?|[x [Hx Hin]]]]; try done.
    exists x. by rewrite includes_true.
Qed.

Lemma doArraysIntersect_empty_tech (reqArray : option (list string)) :
  doArraysIntersect reqArray (Some []) = true.
Proof. unfold doArraysIntersect. by destruct (absentOrEmpty reqArray). Qed.

Lemma doArraysIntersect_empty_req (techArray : option (list string))
      (reqArray : option (list string)) :
  tags reqArray = [] -> doArraysIntersect reqArray techArray = true.
Proof.
  intros H. apply absentOrEmpty_true in H.
  unfold doArraysIntersect. by rewrite H.
Qed.


(** ** Guarded pushes *)

Lemma foldl_pushNew_extends (es : list Rec.t) :
  forall arr, exists ext,
    foldl pushNew arr es = arr ++ ext /\ ext `sublist_of` es.
Proof.
  induction es as [|e es IH]; intros arr; simpl.
  - exists []. by rewrite app_nil_r.
  - unfold pushNew at 2. destruct (hasName arr (Rec.name e)).
    + destruct (IH arr) as [ext [Heq Hsub]]. exists ext.
      split; [done | by apply sublist_cons].
    + destruct (IH (arr ++ [e])) as [ext [Heq Hsub]]. exists (e :: ext).
      split; [by rewrite Heq, <- app_assoc | by apply sublist_skip].
Qed.

Lemma foldl_pushNew_NoDup (es : list Rec.t) :
  forall arr,
    NoDup (map Rec.name arr) -> NoDup (map Rec.name (foldl pushNew arr es)).
Proof.
  induction es as [|e es IH]; intros arr Hnd; simpl; [done|].
  apply IH. unfold pushNew. destruct (hasName arr (Rec.name e)) eqn:Hn; [done|].
  apply hasName_false in Hn. rewrite map_app. simpl.
  apply NoDup_app. split; [done|]. split.
  - intros n Hin Hin'. apply list_elem_of_singleton in Hin'. by subst.
  - apply NoDup_singleton.
Qed.

(** The first candidate of a name that is not in the array yet gets in. *)
Lemma foldl_pushNew_first (e : Rec.t) (before after : list Rec.t) :
  forall arr,
    Rec.name e ∉ map Rec.name arr ->
    Rec.name e ∉ map Rec.name before ->
    e ∈ foldl pushNew arr (before ++ e :: after).
Proof.
  induction before as [|x before IH]; intros arr Harr Hbefore; simpl.
  - unfold pushNew at 2. apply hasName_false in Harr. rewrite Harr.
    destruct (foldl_pushNew_extends after (arr ++ [e])) as [ext [-> _]].
    rewrite !elem_of_app, list_elem_of_singleton. auto.
  - simpl in Hbefore. apply not_elem_of_cons in Hbefore as [Hx Hbefore].
    apply IH; [|done]. unfold pushNew.
    destruct (hasName arr (Rec.name x)); [done|].
    rewrite map_app, elem_of_app. simpl. rewrite list_elem_of_singleton.
    tauto.
Qed.

(** In an array with distinct names an entry is known by its name. *)
Lemma names_determine_entries (arr : list Rec.t) (e1 e2 : Rec.t) :
  NoDup (map Rec.name arr) -> e1 ∈ arr -> e2 ∈ arr ->
  Rec.name e1 = Rec.name e2 -> e1 = e2.
Proof.
  induction arr as [|x arr IH]; intros Hnd H1 H2 Hname.
  - by apply elem_of_nil in H1.
  - simpl in Hnd. apply NoDup_cons in Hnd as [Hx Hnd].
    apply elem_of_cons in H1 as [->|H1], H2 as [->|H2]; auto.
    + exfalso. apply Hx. rewrite Hname. apply list_elem_of_fmap. eauto.
    + exfalso. apply Hx. rewrite <- Hname. apply list_elem_of_fmap. eauto.
Qed.

Lemma countName_absent (arr : list Rec.t) (n : string) :
  n ∉ map Rec.name arr -> countName n arr = 0.
Proof.
  unfold countName. induction arr as [|x arr IH]; intros Hn; simpl; [done|].
  simpl in Hn. apply not_elem_of_cons in Hn as [Hx Hn].
  destruct (String.eqb (Rec.name x) n) eqn:Heq; [|by apply IH].
  apply String.eqb_eq in Heq. congruence.
Qed.

(** An array with distinct names holds each of its entries' names once. *)
Lemma countName_NoDup (arr : list Rec.t) (e : Rec.t) :
  NoDup (map Rec.name arr) -> e ∈ arr -> countName (Rec.name e) arr = 1.
Proof.
  induction arr as [|x arr IH]; intros Hnd Hin.
  - by apply elem_of_nil in Hin.
  - simpl in Hnd. apply NoDup_cons in Hnd as [Hx Hnd].
    unfold countName. simpl. fold (countName (Rec.name e) arr).
    apply elem_of_cons in Hin as [->|Hin].
    + rewrite String.eqb_refl. simpl. f_equal. by apply countName_absent.
    + destruct (String.eqb (Rec.name x) (Rec.name e)) eqn:Heq; [|by apply IH].
      apply String.eqb_eq in Heq. exfalso. apply Hx. rewrite Heq.
      apply list_elem_of_fmap. eauto.
Qed.

(** ** The loop body *)

Section Loop.

Context (req : Requirement).

Lemma getProp_own (recs : Recommendations) (key : string) (arr : list Rec.t) :
  recs !! key = Some arr -> getProp recs key = OwnArray arr.
Proof. intros H. unfold getProp. by rewrite H. Qed.

Lemma visit_own (recs : Recommendations)
      (tech : TechniqueDetail) (arr : list Rec.t) :
  recs !! stage tech = Some arr ->
  visit req recs tech
  = Normal (if allCriteria req tech && negb (hasName arr (name tech))
            then <[stage tech := arr ++ [entryOf tech]]> recs
            else recs).
Proof.
  intros H. unfold visit. rewrite (getProp_own _ _ _ H).
  destruct (allCriteria req tech); [|done].
  by destruct (hasName arr (name tech)).
Qed.

Lemma visit_rejected (recs : Recommendations)
      (tech : TechniqueDetail) :
  allCriteria req tech = false -> visit req recs tech = Normal recs.
Proof. intros H. unfold visit. by rewrite H. Qed.

Lemma visit_unknown_stage (recs : Recommendations)
      (tech : TechniqueDetail) :
  recs !! stage tech = None -> isInherited (stage tech) = false ->
  visit req recs tech = Normal recs.
Proof.
  intros H1 H2. unfold visit, getProp. rewrite H1, H2.
  by destruct (allCriteria req tech).
Qed.

Lemma visit_inherited_stage (recs : Recommendations)
      (tech : TechniqueDetail) :
  recs !! stage tech = None -> isInherited (stage tech) = true ->
  allCriteria req tech = true ->
  visit req recs tech = Throw TypeError.
Proof. intros H1 H2 H3. unfold visit, getProp. by rewrite H1, H2, H3. Qed.

(** A visit that returns leaves the set of own property names as it was. *)
Lemma visit_dom (recs recs' : Recommendations)
      (tech : TechniqueDetail) :
  visit req recs tech = Normal recs' -> dom recs' = dom recs.
Proof.
  unfold visit, getProp.
  destruct (allCriteria req tech); [|by inversion 1].
  destruct (recs !! stage tech) as [arr|] eqn:Hs.
  - destruct (hasName arr (name tech)); intros Heq; injection Heq as <-;
      [done|].
    rewrite dom_insert_L. apply (elem_of_dom_2 (D := gset string)) in Hs.
    apply leibniz_equiv. intros key.
    rewrite elem_of_union, elem_of_singleton.
    split; [intros [Hk|Hk]; [by subst | done] | by right].
  - destruct (isInherited (stage tech)); by inversion 1.
Qed.

Lemma candidates_cons (key : string)
      (tech : TechniqueDetail) (rest : list TechniqueDetail) :
  candidates req key (tech :: rest)
  = if allCriteria req tech && String.eqb (stage tech) key
    then entryOf tech :: candidates req key rest
    else candidates req key rest.
Proof.
  unfold candidates. rewrite filter_cons. case_decide as Hd.
  - destruct Hd as [Hc Hk]. rewrite Hc. subst key.
    by rewrite String.eqb_refl.
  - destruct (allCriteria req tech) eqn:Hc; [|done].
    destruct (String.eqb (stage tech) key) eqn:Hk; [|done].
    apply String.eqb_eq in Hk. tauto.
Qed.

(** The whole loop over the catalog, from any state: every own array grows
    by the guarded pushes of its candidates, and nothing else changes. *)
Lemma forEach_visit (allTechniques : list TechniqueDetail) :
  stagesSafe allTechniques ->
  forall recs : Recommendations,
  exists recs' : Recommendations,
    forEach (visit req) allTechniques recs = Normal recs'
    /\ forall key,
        recs' !! key
        = (fun arr => foldl pushNew arr (candidates req key allTechniques))
            <$> recs !! key.
Proof.
  induction 1 as [|tech rest Hsafe _ IH]; intros recs.
  - exists recs. split; [done|]. intros key. simpl.
    by destruct (recs !! key).
  - simpl.
    assert (exists mid : Recommendations,
               visit req recs tech = Normal mid
               /\ forall key,
                   mid !! key
                   = (fun arr =>
                        if allCriteria req tech && String.eqb (stage tech) key
                        then pushNew arr (entryOf tech) else arr)
                       <$> recs !! key) as [mid [Hmid Hlook]].
    { destruct (recs !! stage tech) as [arr|] eqn:Hs.
      - rewrite (visit_own _ _ _ Hs). eexists. split; [done|].
        intros key. destruct (allCriteria req tech); simpl.
        + destruct (String.eqb (stage tech) key) eqn:Hk.
          * apply String.eqb_eq in Hk. subst key. rewrite Hs. simpl.
            unfold pushNew. simpl.
            destruct (hasName arr (name tech)); simpl; [done|].
            by rewrite lookup_insert_eq.
          * apply String.eqb_neq in Hk.
            destruct (hasName arr (name tech)); simpl.
            -- by destruct (recs !! key).
            -- rewrite lookup_insert_ne by done. by destruct (recs !! key).
        + by destruct (recs !! key).
      - rewrite (visit_unknown_stage _ _ Hs Hsafe). eexists. split; [done|].
        intros key. destruct (recs !! key) eqn:Hk; simpl; [|done].
        destruct (String.eqb (stage tech) key) eqn:Hk'.
        + apply String.eqb_eq in Hk'. congruence.
        + by rewrite andb_false_r. }
    rewrite Hmid. simpl. destruct (IH mid) as [recs' [Hrun Hfinal]].
    exists recs'. split; [done|]. intros key.
    rewrite Hfinal, Hlook, candidates_cons.
    destruct (recs !! key); simpl; [|done].
    by destruct (allCriteria req tech && String.eqb (stage tech) key).
Qed.

(** ** The whole function *)

Lemma initialRecommendations_lookup (key : string) :
  initialRecommendations !! key
  = if includes allStages key then Some [] else None.
Proof.
  unfold initialRecommendations.
  repeat (rewrite lookup_insert; case_decide; [by subst|]).
  rewrite lookup_empty.
  destruct (includes allStages key) eqn:Hkey; [|done].
  apply includes_true in Hkey. unfold allStages in Hkey.
  rewrite !elem_of_cons, elem_of_nil in Hkey. intuition congruence.
Qed.

Lemma stage_names_not_inherited (key : string) :
  includes allStages key = true -> isInherited key = false.
Proof.
  rewrite includes_true. unfold allStages.
  rewrite !elem_of_cons, elem_of_nil.
  intros [->|[->|[->|[->|[->|[]]]]]]; reflexivity.
Qed.

Lemma ensureStage_own (recs : Recommendations) (key : string) :
  is_Some (recs !! key) -> ensureStage recs key = recs.
Proof. intros [arr H]. unfold ensureStage. by rewrite (getProp_own _ _ _ H). Qed.

Lemma ensureStages_own (recs : Recommendations) (keys : list string) :
  (forall key, key ∈ keys -> is_Some (recs !! key)) ->
  foldl ensureStage recs keys = recs.
Proof.
  induction keys as [|k keys IH]; intros H; simpl; [done|].
  rewrite ensureStage_own by (apply H; left). apply IH.
  intros key Hkey. apply H. by right.
Qed.

(** On a safe catalog the function returns, and the result reads, key by
    key, as the five stage arrays and nothing else. *)
Lemma getFilteredTechniques_lookup (allTechniques : list TechniqueDetail)
      :
  stagesSafe allTechniques ->
  exists recs : Recommendations,
    getFilteredTechniques allTechniques (Some req) = Normal recs
    /\ forall key,
        recs !! key
        = if includes allStages key
          then Some (stageList req key allTechniques) else None.
Proof.
  intros Hsafe.
  destruct (forEach_visit allTechniques Hsafe initialRecommendations)
    as [recs [Hrun Hlook]].
  assert (forall key,
             recs !! key
             = if includes allStages key
               then Some (stageList req key allTechniques) else None) as Hkeys.
  { intros key. rewrite Hlook, initialRecommendations_lookup.
    by destruct (includes allStages key). }
  exists recs. split; [|done].
  unfold getFilteredTechniques. rewrite Hrun. unfold bind.
  f_equal. apply ensureStages_own. intros key Hkey.
  rewrite Hkeys. apply includes_true in Hkey. rewrite Hkey. eauto.
Qed.

Lemma lookup_five_dom (recs : Recommendations) (f : string -> list Rec.t) :
  (forall key, recs !! key = if includes allStages key then Some (f key) else None) ->
  dom recs = list_to_set allStages.
Proof.
  intros H. apply leibniz_equiv. intros key.
  rewrite elem_of_dom, H, elem_of_list_to_set, <- includes_true.
  destruct (includes allStages key); split; try done; eauto.
Qed.

(** A technique that meets the criteria and is filed under an inherited
    property name makes the loop raise, whatever precedes or follows it. *)
Lemma forEach_visit_throw (tech : TechniqueDetail)
      (allTechniques : list TechniqueDetail) :
  tech ∈ allTechniques ->
  allCriteria req tech = true ->
  isInherited (stage tech) = true ->
  forall recs : Recommendations,
    (forall key, isInherited key = true -> recs !! key = None) ->
    forEach (visit req) allTechniques recs = Throw TypeError.
Proof.
  intros Hin Hc Hi.
  induction allTechniques as [|x rest IH]; intros recs Hrecs.
  - by apply elem_of_nil in Hin.
  - simpl. destruct (visit req recs x) as [mid|[]] eqn:Hx; [|done].
    simpl. apply elem_of_cons in Hin as [<-|Hin].
    + rewrite visit_inherited_stage in Hx; auto. done.
    + apply IH; [done|]. intros key Hkey.
      apply (not_elem_of_dom (D := gset string)).
      rewrite (visit_dom _ _ _ Hx).
      apply not_elem_of_dom. auto.
Qed.

Lemma getFilteredTechniques_throws (tech : TechniqueDetail)
      (allTechniques : list TechniqueDetail) :
  tech ∈ allTechniques ->
  allCriteria req tech = true ->
  isInherited (stage tech) = true ->
  getFilteredTechniques allTechniques (Some req) = Throw TypeError.
Proof.
  intros Hin Hc Hi. unfold getFilteredTechniques.
  rewrite (forEach_visit_throw tech); auto.
  intros key Hkey. rewrite initialRecommendations_lookup.
  destruct (includes allStages key) eqn:Hk; [|done].
  apply stage_names_not_inherited in Hk. congruence.
Qed.

End Loop.

(** ** The matching criteria *)

Lemma allCriteria_true (req : Requirement) (tech : TechniqueDetail) :
  allCriteria req tech = true
  <-> projectTypeMatch req tech = true /\ userBaseMatch req tech = true
      /\ outcomeMatch req tech = true /\ deviceTypeMatch req tech = true
      /\ outputTypeMatch req tech = true.
Proof. unfold allCriteria. rewrite !andb_true_iff. tauto. Qed.

Lemma userBaseMatch_true (req : Requirement) (tech : TechniqueDetail) :
  userBaseMatch req tech = true
  <-> user_base tech = None
      \/ exists ub, user_base tech = Some ub /\ userContext req ∈ ub.
Proof.
  unfold userBaseMatch. split.
  - destruct (user_base tech) as [ub|]; [|auto].
    intros H. apply includes_true in H. eauto.
  - intros [H|[ub [H Hin]]]; rewrite H; [done|]. by apply includes_true.
Qed.

(** C6. The outcome criterion holds exactly when the requirement's outcome
    selection is empty or absent, or the technique's outcomes are empty, or
    the two share a tag; the device-type criterion is the same
    lenient-intersection rule on [device_type] and [device_types]. *)
Theorem outcome_and_device_criteria (req : Requirement) (tech : TechniqueDetail) :
  (outcomeMatch req tech = true
   <-> tags (outcome req) = [] \/ tags (outcomes tech) = []
       \/ exists tag, tag ∈ tags (outcome req) /\ tag ∈ tags (outcomes tech))
  /\ (deviceTypeMatch req tech = true
      <-> lenientIntersection (tags (device_type req))
                              (tags (device_types tech))).
Proof.
  split.
  - unfold outcomeMatch. apply doArraysIntersect_lenient.
  - unfold deviceTypeMatch. apply doArraysIntersect_lenient.
Qed.

(** C3. The output-type criterion is true for every technique filed under
    Discover, Define or Design, whatever the requirement selects; for a
    technique filed under Develop or Deliver it is the lenient-intersection
    rule between [output_type] and [output_types]. *)
Theorem output_type_criterion (req : Requirement) (tech : TechniqueDetail) :
  (stage tech ∈ ["Discover"; "Define"; "Design"] ->
   outputTypeMatch req tech = true)
  /\ (stage tech ∈ ["Develop"; "Deliver"] ->
      outputTypeMatch req tech
      = doArraysIntersect (output_type req) (output_types tech)
      /\ (outputTypeMatch req tech = true
          <-> lenientIntersection (tags (output_type req))
                                  (tags (output_types tech)))).
Proof.
  unfold outputTypeMatch, isEarlyStage. split.
  - intros Hs. fold earlyStages in Hs. apply includes_true in Hs.
    by rewrite Hs.
  - intros Hs.
    assert (includes earlyStages (stage tech) = false) as ->.
    { rewrite !elem_of_cons, elem_of_nil in Hs.
      destruct Hs as [->|[->|[]]]; reflexivity. }
    simpl. split; [done | apply doArraysIntersect_lenient].
Qed.

(** The two output-type examples of the specification: the early-stage
    technique passes on disjoint output types, the late-stage one does
    not. *)
Lemma output_type_criterion_examples :
  outputTypeMatch kioskRequirement discoverMobile = true
  /\ outputTypeMatch desktopRequirement deliverMobile = false.
Proof.
  split.
  - destruct (output_type_criterion kioskRequirement discoverMobile)
      as [Hearly _].
    apply Hearly. list_member.
  - assert (stage deliverMobile ∈ ["Develop"; "Deliver"]) as Hs
        by list_member.
    destruct (output_type_criterion desktopRequirement deliverMobile)
      as [_ Hlate].
    destruct (Hlate Hs) as [-> _]. reflexivity.
Defined.

(** C8. The user context is "existing" when [existing_users] is true and
    "new" otherwise, unset included; the user-base criterion holds exactly
    when the technique has no [user_base] or its [user_base] contains the
    user context. *)
Theorem user_base_criterion (req : Requirement) (tech : TechniqueDetail) :
  (existing_users req = Some true -> userContext req = "existing")
  /\ (existing_users req <> Some true -> userContext req = "new")
  /\ (userBaseMatch req tech = true
      <-> user_base tech = None
          \/ exists ub, user_base tech = Some ub /\ userContext req ∈ ub).
Proof.
  split; [|split]; [| |apply userBaseMatch_true]; unfold userContext.
  - by intros ->.
  - by destruct (existing_users req) as [[]|].
Qed.

Lemma user_base_criterion_unset :
  userContext noSelection = "new"
  /\ userContext scenarioRequirement = "new".
Proof.
  split.
  - by apply (user_base_criterion noSelection userInterviews).
  - by apply (user_base_criterion scenarioRequirement userInterviews).
Defined.

(** C9. A technique whose [user_base] is present and empty fails the
    user-base criterion for every requirement, so visiting it never changes
    the result and the result is the one of the catalog without it;
    whereas a technique whose outcomes, device types or output types are
    present and empty always passes the criterion in question. *)
Theorem empty_user_base_excluded (req : Requirement) (tech : TechniqueDetail) :
  user_base tech = Some [] ->
  userBaseMatch req tech = false
  /\ (forall recs : Recommendations, visit req recs tech = Normal recs)
  /\ (forall before after : list TechniqueDetail,
        getFilteredTechniques (before ++ tech :: after) (Some req)
        = getFilteredTechniques (before ++ after) (Some req))
  /\ (forall other : TechniqueDetail,
        (outcomes other = Some [] -> outcomeMatch req other = true)
        /\ (device_types other = Some [] -> deviceTypeMatch req other = true)
        /\ (output_types other = Some [] -> outputTypeMatch req other = true)).
Proof.
  intros Hub.
  assert (userBaseMatch req tech = false) as Hm
      by (unfold userBaseMatch; by rewrite Hub).
  assert (forall recs : Recommendations, visit req recs tech = Normal recs)
    as Hv.
  { intros recs. apply visit_rejected. unfold allCriteria.
    rewrite Hm. apply andb_false_r. }
  split; [done|]. split; [done|]. split.
  - intros before after. unfold getFilteredTechniques. f_equal.
    generalize initialRecommendations.
    induction before as [|x before IH]; intros recs; simpl.
    + by rewrite Hv.
    + destruct (visit req recs x); simpl; [apply IH | done].
  - intros other.
    unfold outcomeMatch, deviceTypeMatch, outputTypeMatch.
    repeat split; intros ->; rewrite doArraysIntersect_empty_tech;
      [done | done | apply orb_true_r].
Qed.

Lemma empty_user_base_excluded_witness :
  userBaseMatch noSelection emptyUserBase = false
  /\ getFilteredTechniques [emptyUserBase] (Some noSelection)
     = Normal initialRecommendations.
Proof.
  destruct (empty_user_base_excluded noSelection emptyUserBase eq_refl)
    as [Hm [_ [Hcat _]]].
  split; [exact Hm|]. exact (Hcat [] []).
Defined.

(** *** Comparison without regard to case *)

Lemma lowerAscii_capital (c : ascii) :
  isCapital c -> lowerAscii c = ascii_of_nat (nat_of_ascii c + 32).
Proof.
  intros [H1 H2]. unfold lowerAscii.
  apply Nat.leb_le in H1, H2. by rewrite H1, H2.
Qed.

Lemma lowerAscii_other (c : ascii) : ~ isCapital c -> lowerAscii c = c.
Proof.
  intros Hc. unfold lowerAscii.
  destruct (Nat.leb 65 (nat_of_ascii c)) eqn:H1; [|done].
  destruct (Nat.leb (nat_of_ascii c) 90) eqn:H2; [|done].
  exfalso. apply Hc. split; by apply Nat.leb_le.
Qed.

Lemma isCapital_dec (c : ascii) : isCapital c \/ ~ isCapital c.
Proof. unfold isCapital. lia. Qed.

Lemma ascii_of_code (c : ascii) (n : nat) :
  nat_of_ascii c = n -> c = ascii_of_nat n.
Proof. intros <-. by rewrite ascii_nat_embedding. Qed.

Lemma lowerAscii_eq_iff (c d : ascii) :
  lowerAscii c = lowerAscii d <-> caseVariants c d.
Proof.
  unfold caseVariants.
  pose proof (nat_ascii_bounded c) as Hbc.
  pose proof (nat_ascii_bounded d) as Hbd.
  destruct (isCapital_dec c) as [Hc|Hc], (isCapital_dec d) as [Hd|Hd];
    rewrite ?(lowerAscii_capital _ Hc), ?(lowerAscii_capital _ Hd),
      ?(lowerAscii_other _ Hc), ?(lowerAscii_other _ Hd).
  - split.
    + intros H. apply (f_equal nat_of_ascii) in H.
      unfold isCapital in *.
      rewrite !nat_ascii_embedding in H by lia. left.
      rewrite <- (ascii_nat_embedding c), <- (ascii_nat_embedding d).
      f_equal. lia.
    + unfold isCapital in *. intros [->|[[_ H]|[_ H]]]; [done | lia | lia].
  - split.
    + intros <-. right. left. split; [done|].
      unfold isCapital in *. rewrite nat_ascii_embedding; lia.
    + intros [->|[[_ H]|[H _]]]; [done | | done].
      symmetry. by apply ascii_of_code.
  - split.
    + intros ->. right. right. split; [done|].
      unfold isCapital in *. rewrite nat_ascii_embedding; lia.
    + intros [->|[[H _]|[_ H]]]; [done | done |].
      by apply ascii_of_code.
  - split; [by left|]. by intros [->|[[H _]|[H _]]].
Qed.

Lemma toLowerCase_eq_iff (a : string) :
  forall b, toLowerCase a = toLowerCase b <-> equalIgnoringCase a b.
Proof.
  induction a as [|c a IH]; intros [|d b]; simpl; try done.
  rewrite <- IH, <- lowerAscii_eq_iff. split.
  - intros H. by injection H.
  - by intros [-> ->].
Qed.

(** C7. For a project type that is unset or a non-empty string, the
    project-type criterion holds exactly when [project_type] is unset or
    [project_types] contains a value equal to it up to the case of the
    letters; a technique with [project_types = ["New"]] matches
    [project_type = "new"]. The strings are ASCII, as the values new, old,
    New and Old are. *)
Theorem project_type_criterion (req : Requirement) (tech : TechniqueDetail) :
  project_type req <> Some "" ->
  (forall p, project_type req = Some p -> asciiString p) ->
  (forall pType, pType ∈ project_types tech -> asciiString pType) ->
  (projectTypeMatch req tech = true
   <-> project_type req = None
       \/ exists p pType,
            project_type req = Some p /\ pType ∈ project_types tech
            /\ equalIgnoringCase pType p)
  /\ (project_types tech = ["New"] -> project_type req = Some "new" ->
      projectTypeMatch req tech = true).
Proof.
  intros Hset _ _. unfold projectTypeMatch. split.
  - destruct (project_type req) as [p|]; simpl; [|tauto].
    destruct (String.eqb p "") eqn:Hp; simpl.
    + apply String.eqb_eq in Hp. by subst p.
    + rewrite some_true. split.
      * intros [pType [Hin Heq]]. apply String.eqb_eq in Heq.
        right. exists p, pType. by rewrite <- toLowerCase_eq_iff.
      * intros [H|[p' [pType [H [Hin Heq]]]]]; [done|].
        injection H as <-. exists pType. split; [done|].
        by apply String.eqb_eq, toLowerCase_eq_iff.
  - by intros -> ->.
Qed.

Lemma project_type_criterion_witness :
  projectTypeMatch lowerCaseNew newOnly = true.
Proof.
  apply (project_type_criterion lowerCaseNew newOnly).
  - discriminate.
  - intros p Hp. injection Hp as <-. ascii_string.
  - intros pType Hp. apply list_elem_of_singleton in Hp. subst pType.
    ascii_string.
  - reflexivity.
  - reflexivity.
Defined.

(** ** Aggregation *)

(** A catalog that respects the stage enumeration is safe. *)
Lemma stagesSafe_five_stages (allTechniques : list TechniqueDetail) :
  Forall (fun tech => stage tech ∈ allStages) allTechniques ->
  stagesSafe allTechniques.
Proof.
  intros H. eapply Forall_impl; [exact H|]. intros tech Hs.
  apply stage_names_not_inherited. by apply includes_true.
Qed.

(** C2. On a catalog none of whose stage values is an inherited property
    name (so on every catalog that respects the stage enumeration), the
    function returns for every requirement, a missing one and one with
    every selection empty or unset included, and the own keys of the
    result are exactly the five stages, each holding an array. *)
Theorem getFilteredTechniques_total (allTechniques : list TechniqueDetail)
        (requirement : option Requirement) :
  stagesSafe allTechniques ->
  exists recs : Recommendations,
    getFilteredTechniques allTechniques requirement = Normal recs
    /\ dom recs = list_to_set allStages
    /\ forall key, key ∈ allStages -> exists arr, recs !! key = Some arr.
Proof.
  intros Hsafe. destruct requirement as [req|].
  - destruct (getFilteredTechniques_lookup req allTechniques Hsafe)
      as [recs [Hrun Hlook]].
    exists recs. split; [done|]. split.
    + by apply (lookup_five_dom recs (fun key => stageList req key allTechniques)).
    + intros key Hkey. apply includes_true in Hkey.
      rewrite Hlook, Hkey. eauto.
  - exists initialRecommendations. split; [done|]. split.
    + apply (lookup_five_dom _ (fun _ => [])).
      apply initialRecommendations_lookup.
    + intros key Hkey. apply includes_true in Hkey.
      rewrite initialRecommendations_lookup, Hkey. eauto.
Qed.

Lemma getFilteredTechniques_total_witness :
  exists recs : Recommendations,
    getFilteredTechniques [userInterviews; deliverMobile] (Some noSelection)
    = Normal recs
    /\ dom recs = list_to_set allStages.
Proof.
  assert (stagesSafe [userInterviews; deliverMobile]) as Hsafe
      by (repeat constructor).
  destruct (getFilteredTechniques_total [userInterviews; deliverMobile]
              (Some noSelection) Hsafe) as [recs [Hrun [Hdom _]]].
  exists recs. auto.
Defined.

Lemma candidates_app (req : Requirement) (key : string)
      (l1 l2 : list TechniqueDetail) :
  candidates req key (l1 ++ l2) = candidates req key l1 ++ candidates req key l2.
Proof. unfold candidates. by rewrite filter_app, map_app. Qed.

Lemma candidates_elem (req : Requirement) (key : string)
      (allTechniques : list TechniqueDetail) (e : Rec.t) :
  e ∈ candidates req key allTechniques
  <-> exists tech, tech ∈ allTechniques /\ allCriteria req tech = true
                   /\ stage tech = key /\ e = entryOf tech.
Proof.
  unfold candidates. rewrite list_elem_of_fmap. split.
  - intros [tech [-> Hin]]. apply list_elem_of_filter in Hin as [[Hc Hs] Hin].
    eauto 6.
  - intros [tech [Hin [Hc [Hs ->]]]]. exists tech. split; [done|].
    apply list_elem_of_filter. auto.
Qed.

Lemma candidates_sublist (req : Requirement) (key : string)
      (allTechniques : list TechniqueDetail) :
  candidates req key allTechniques `sublist_of` map entryOf allTechniques.
Proof.
  unfold candidates. apply (fmap_sublist entryOf), sublist_filter.
Qed.

(** The array of a stage: a subsequence of its candidates, with distinct
    names, holding every candidate that is the first of its name. *)
Lemma stageList_sublist (req : Requirement) (key : string)
      (allTechniques : list TechniqueDetail) :
  stageList req key allTechniques `sublist_of` candidates req key allTechniques.
Proof.
  unfold stageList.
  by destruct (foldl_pushNew_extends (candidates req key allTechniques) [])
    as [ext [-> Hsub]].
Qed.

Lemma stageList_NoDup (req : Requirement) (key : string)
      (allTechniques : list TechniqueDetail) :
  NoDup (map Rec.name (stageList req key allTechniques)).
Proof. apply foldl_pushNew_NoDup. constructor. Qed.

Lemma stageList_first (req : Requirement)
      (before after : list TechniqueDetail) (tech : TechniqueDetail) :
  allCriteria req tech = true ->
  (forall t, t ∈ before -> stage t = stage tech -> name t = name tech ->
             allCriteria req t = false) ->
  entryOf tech ∈ stageList req (stage tech) (before ++ tech :: after).
Proof.
  intros Hc Hbefore. unfold stageList.
  rewrite candidates_app, candidates_cons, Hc, String.eqb_refl. simpl.
  apply foldl_pushNew_first.
  - simpl. apply not_elem_of_nil.
  - intros Hin. apply list_elem_of_fmap in Hin as [e [Hname He]].
    apply candidates_elem in He as [t [Ht [Hct [Hst ->]]]].
    simpl in Hname. rewrite (Hbefore t) in Hct; done.
Qed.

Lemma stageList_snoc (req : Requirement) (key : string)
      (before : list TechniqueDetail) (tech : TechniqueDetail) :
  stageList req key (before ++ [tech])
  = if allCriteria req tech && String.eqb (stage tech) key
    then pushNew (stageList req key before) (entryOf tech)
    else stageList req key before.
Proof.
  unfold stageList. rewrite candidates_app, foldl_app, candidates_cons.
  by destruct (allCriteria req tech && String.eqb (stage tech) key).
Qed.

Lemma stageList_app (req : Requirement) (key : string)
      (visited rest : list TechniqueDetail) :
  exists later,
    stageList req key (visited ++ rest) = stageList req key visited ++ later.
Proof.
  unfold stageList. rewrite candidates_app, foldl_app.
  destruct (foldl_pushNew_extends (candidates req key rest)
              (foldl pushNew [] (candidates req key visited)))
    as [later [-> _]].
  eauto.
Qed.

(** C1. When the loop reaches a catalog entry of one of the five stages,
    [{name, slug}] of the entry is appended to the array its stage has at
    that point if and only if all five criteria hold for the entry and the
    array holds no entry of that name yet; otherwise the array stays as it
    is. No other stage's array changes, and what the array holds after the
    entry is the beginning of that stage's array in the returned result.
    The arrays at the two points are read off the results of the calls on
    the catalog up to the entry, without it and with it. *)
Theorem technique_appended_iff_all_criteria (req : Requirement)
        (before after : list TechniqueDetail) (tech : TechniqueDetail) :
  stagesSafe (before ++ tech :: after) ->
  stage tech ∈ allStages ->
  exists (recs0 recs1 recs : Recommendations) (arr0 arr1 later : list Rec.t),
    getFilteredTechniques before (Some req) = Normal recs0
    /\ getFilteredTechniques (before ++ [tech]) (Some req) = Normal recs1
    /\ getFilteredTechniques (before ++ tech :: after) (Some req)
       = Normal recs
    /\ recs0 !! stage tech = Some arr0
    /\ recs1 !! stage tech = Some arr1
    /\ (arr1 = arr0 ++ [Rec.mk (name tech) (slug tech)]
        <-> (projectTypeMatch req tech = true /\ userBaseMatch req tech = true
             /\ outcomeMatch req tech = true /\ deviceTypeMatch req tech = true
             /\ outputTypeMatch req tech = true)
            /\ name tech ∉ map Rec.name arr0)
    /\ (arr1 = arr0 ++ [Rec.mk (name tech) (slug tech)] \/ arr1 = arr0)
    /\ (forall key, key <> stage tech -> recs1 !! key = recs0 !! key)
    /\ recs !! stage tech = Some (arr1 ++ later).
Proof.
  intros Hsafe Hstage.
  assert (stagesSafe before /\ stagesSafe (before ++ [tech])) as [Hs0 Hs1].
  { unfold stagesSafe in *. rewrite Forall_app, Forall_cons in Hsafe.
    destruct Hsafe as [H0 [Ht _]]. split; [done|].
    rewrite Forall_app, Forall_singleton. done. }
  destruct (getFilteredTechniques_lookup req _ Hs0) as [recs0 [Hrun0 Hlook0]].
  destruct (getFilteredTechniques_lookup req _ Hs1) as [recs1 [Hrun1 Hlook1]].
  destruct (getFilteredTechniques_lookup req _ Hsafe) as [recs [Hrun Hlook]].
  destruct (stageList_app req (stage tech) (before ++ [tech]) after)
    as [later Hlater].
  rewrite <- app_assoc in Hlater. simpl in Hlater.
  apply includes_true in Hstage.
  exists recs0, recs1, recs, (stageList req (stage tech) before),
    (stageList req (stage tech) (before ++ [tech])), later.
  split; [done|]. split; [done|]. split; [done|].
  split; [by rewrite Hlook0, Hstage|].
  split; [by rewrite Hlook1, Hstage|].
  assert (forall l : list Rec.t, l <> l ++ [entryOf tech]) as Hgrow.
  { intros l Heq. apply (f_equal length) in Heq.
    rewrite length_app in Heq. simpl in Heq. lia. }
  change (Rec.mk (name tech) (slug tech)) with (entryOf tech).
  rewrite stageList_snoc, String.eqb_refl, andb_true_r.
  rewrite <- allCriteria_true, <- hasName_false. unfold pushNew. simpl.
  split; [|split; [|split]].
  - destruct (allCriteria req tech),
      (hasName (stageList req (stage tech) before) (name tech));
      split; try done; try (by intros ?%Hgrow); by intros [? ?].
  - destruct (allCriteria req tech),
      (hasName (stageList req (stage tech) before) (name tech)); auto.
  - intros key Hkey. rewrite Hlook0, Hlook1.
    destruct (includes allStages key); [|done]. f_equal.
    rewrite stageList_snoc.
    apply not_eq_sym, String.eqb_neq in Hkey.
    by rewrite Hkey, andb_false_r.
  - by rewrite Hlook, Hstage, Hlater, stageList_snoc, String.eqb_refl,
      andb_true_r.
Qed.

Lemma technique_appended_iff_all_criteria_witness :
  exists (recs : Recommendations) (later : list Rec.t),
    getFilteredTechniques [discoverMobile; userInterviews; deliverMobile]
                          (Some scenarioRequirement) = Normal recs
    /\ recs !! "Discover"
       = Some ([Rec.mk "Field Study" "field-study";
                Rec.mk "User Interviews" "user-interviews"] ++ later).
Proof.
  assert (stagesSafe ([discoverMobile] ++ userInterviews :: [deliverMobile]))
    as Hsafe by (repeat constructor).
  assert (stage userInterviews ∈ allStages) as Hstage by list_member.
  destruct (technique_appended_iff_all_criteria scenarioRequirement
              [discoverMobile] [deliverMobile] userInterviews Hsafe Hstage)
    as (recs0 & recs1 & recs & arr0 & arr1 & later
        & Hrun0 & _ & Hrun & Harr0 & _ & Hiff & _ & _ & Hfinal).
  assert (getFilteredTechniques [discoverMobile] (Some scenarioRequirement)
          = Normal (<["Discover" := [Rec.mk "Field Study" "field-study"]]>
                      initialRecommendations)) as Heval
      by (vm_compute; reflexivity).
  rewrite Heval in Hrun0. injection Hrun0 as <-.
  rewrite lookup_insert_eq in Harr0. injection Harr0 as <-.
  assert (arr1 = [Rec.mk "Field Study" "field-study"]
                   ++ [Rec.mk "User Interviews" "user-interviews"]) as ->.
  { apply Hiff. split; [by repeat split|].
    simpl. intros Hin. apply list_elem_of_singleton in Hin. done. }
  exists recs, later. split; [exact Hrun | exact Hfinal].
Defined.

Lemma stage_array_lookup (req : Requirement)
      (allTechniques : list TechniqueDetail) (key : string) :
  stagesSafe allTechniques ->
  key ∈ allStages ->
  exists recs : Recommendations,
    getFilteredTechniques allTechniques (Some req) = Normal recs
    /\ recs !! key = Some (stageList req key allTechniques).
Proof.
  intros Hsafe Hkey.
  destruct (getFilteredTechniques_lookup req allTechniques Hsafe)
    as [recs [Hrun Hlook]].
  exists recs. split; [done|].
  rewrite Hlook. apply includes_true in Hkey. by rewrite Hkey.
Qed.

(** C5, as the code has it. On a safe catalog each stage's array follows
    catalog order (it is a subsequence of the entries of the techniques
    filed under that stage that meet the criteria, hence of the catalog),
    no name occurs in it twice, and of several entries of one name in one
    stage the first that meets all five criteria is the one it holds. *)
Theorem stage_list_order_and_duplicates (allTechniques : list TechniqueDetail)
        (req : Requirement) (key : string) :
  stagesSafe allTechniques ->
  key ∈ allStages ->
  exists (recs : Recommendations) (arr : list Rec.t),
    getFilteredTechniques allTechniques (Some req) = Normal recs
    /\ recs !! key = Some arr
    /\ arr `sublist_of` candidates req key allTechniques
    /\ arr `sublist_of` map entryOf allTechniques
    /\ NoDup (map Rec.name arr)
    /\ forall before tech after,
        allTechniques = before ++ tech :: after ->
        stage tech = key ->
        allCriteria req tech = true ->
        (forall t, t ∈ before -> stage t = key -> name t = name tech ->
                   allCriteria req t = false) ->
        entryOf tech ∈ arr
        /\ forall e, e ∈ arr -> Rec.name e = name tech ->
                     Rec.slug e = slug tech.
Proof.
  intros Hsafe Hkey.
  destruct (getFilteredTechniques_lookup req allTechniques Hsafe)
    as [recs [Hrun Hlook]].
  exists recs, (stageList req key allTechniques).
  split; [done|]. split.
  { rewrite Hlook. apply includes_true in Hkey. by rewrite Hkey. }
  split; [apply stageList_sublist|]. split.
  { etrans; [apply stageList_sublist | apply candidates_sublist]. }
  split; [apply stageList_NoDup|].
  intros before tech after -> <- Hc Hfirst.
  assert (entryOf tech
          ∈ stageList req (stage tech) (before ++ tech :: after)) as Hin
      by (by apply stageList_first).
  split; [done|]. intros e He Hname.
  assert (e = entryOf tech) as ->; [|done].
  eapply names_determine_entries; eauto using stageList_NoDup.
Qed.

Lemma stage_list_order_and_duplicates_witness :
  exists (recs : Recommendations) (arr : list Rec.t),
    getFilteredTechniques [cardSortingMobile; cardSortingWeb]
                          (Some webRequirement) = Normal recs
    /\ recs !! "Develop" = Some arr
    /\ NoDup (map Rec.name arr)
    /\ entryOf cardSortingWeb ∈ arr.
Proof.
  assert (stagesSafe [cardSortingMobile; cardSortingWeb]) as Hsafe
      by (repeat constructor).
  assert ("Develop" ∈ allStages) as Hkey by list_member.
  destruct (stage_list_order_and_duplicates
              [cardSortingMobile; cardSortingWeb] webRequirement "Develop"
              Hsafe Hkey)
    as [recs [arr [Hrun [Hlook [_ [_ [Hnd Hfirst]]]]]]].
  exists recs, arr. repeat split; try done.
  apply (Hfirst [cardSortingMobile] cardSortingWeb []); try reflexivity.
  intros t Ht _ _. apply list_elem_of_singleton in Ht. by subst t.
Defined.

(** C5 as stated fails when the first of two entries of one name in one
    stage does not meet the criteria and the second does: the name appears
    once, with the slug of the second entry. *)
Lemma later_duplicate_wins :
  name cardSortingMobile = name cardSortingWeb
  /\ stage cardSortingMobile = stage cardSortingWeb
  /\ slug cardSortingMobile <> slug cardSortingWeb
  /\ getFilteredTechniques [cardSortingMobile; cardSortingWeb]
                           (Some webRequirement)
     = Normal (<["Develop" := [Rec.mk (name cardSortingMobile)
                                      (slug cardSortingWeb)]]>
                 initialRecommendations).
Proof.
  split; [reflexivity|]. split; [reflexivity|]. split; [discriminate|].
  vm_compute. reflexivity.
Qed.

(** C4, as the code has it. When the three selections are empty or absent
    and [project_type] and [existing_users] are unset, every technique of
    one of the five stages whose [user_base] is absent or contains "new"
    appears in its stage's array exactly once, in a safe catalog with
    unique names. *)
Theorem permissive_on_empty_selection (allTechniques : list TechniqueDetail)
        (req : Requirement) (tech : TechniqueDetail) :
  tags (output_type req) = [] ->
  tags (outcome req) = [] ->
  tags (device_type req) = [] ->
  project_type req = None ->
  existing_users req = None ->
  stagesSafe allTechniques ->
  NoDup (map name allTechniques) ->
  tech ∈ allTechniques ->
  stage tech ∈ allStages ->
  (user_base tech = None
   \/ exists ub, user_base tech = Some ub /\ "new" ∈ ub) ->
  exists (recs : Recommendations) (arr : list Rec.t),
    getFilteredTechniques allTechniques (Some req) = Normal recs
    /\ recs !! stage tech = Some arr
    /\ entryOf tech ∈ arr
    /\ countName (name tech) arr = 1.
Proof.
  intros Hout Hoc Hdev Hpt Heu Hsafe Hnames Hin Hstage Hub.
  assert (allCriteria req tech = true) as Hc.
  { apply allCriteria_true. repeat split.
    - unfold projectTypeMatch. by rewrite Hpt.
    - apply userBaseMatch_true.
      assert (userContext req = "new") as ->
          by (unfold userContext; by rewrite Heu).
      done.
    - by apply doArraysIntersect_empty_req.
    - by apply doArraysIntersect_empty_req.
    - unfold outputTypeMatch. rewrite doArraysIntersect_empty_req by done.
      apply orb_true_r. }
  destruct (stage_array_lookup req allTechniques (stage tech)
              Hsafe Hstage) as [recs [Hrun Hlook]].
  exists recs, (stageList req (stage tech) allTechniques).
  split; [done|]. split; [done|].
  apply list_elem_of_split in Hin as [before [after ->]].
  assert (entryOf tech
          ∈ stageList req (stage tech) (before ++ tech :: after)) as He.
  { apply stageList_first; [done|]. intros t Ht _ Hname. exfalso.
    rewrite map_app in Hnames. simpl in Hnames.
    apply NoDup_app in Hnames as [_ [Hdisj _]].
    apply (Hdisj (name t)).
    - apply list_elem_of_fmap. eauto.
    - rewrite Hname. left. }
  split; [done|].
  apply (countName_NoDup _ (entryOf tech)); [apply stageList_NoDup | done].
Qed.

Lemma permissive_on_empty_selection_witness :
  exists (recs : Recommendations) (arr : list Rec.t),
    getFilteredTechniques [discoverMobile; userInterviews; deliverMobile]
                          (Some noSelection) = Normal recs
    /\ recs !! "Discover" = Some arr
    /\ entryOf userInterviews ∈ arr
    /\ countName "User Interviews" arr = 1.
Proof.
  apply (permissive_on_empty_selection
           [discoverMobile; userInterviews; deliverMobile]
           noSelection userInterviews); try reflexivity.
  - repeat constructor.
  - simpl. repeat constructor; rewrite ?elem_of_cons, ?elem_of_nil;
      intuition discriminate.
  - list_member.
  - list_member.
  - right. exists ["new"; "existing"]. split; [reflexivity | list_member].
Defined.

(** C4 as stated fails on a technique meant for projects with existing
    users: with [existing_users] unset the user context is "new", and the
    technique is left out. *)
Lemma existing_only_technique_missing :
  ~ exists (recs : Recommendations) (arr : list Rec.t),
      getFilteredTechniques [existingOnly] (Some noSelection) = Normal recs
      /\ recs !! stage existingOnly = Some arr
      /\ countName (name existingOnly) arr = 1.
Proof.
  intros [recs [arr [Hrun [Hlook Hcount]]]].
  assert (getFilteredTechniques [existingOnly] (Some noSelection)
          = Normal initialRecommendations) as Heval
      by (vm_compute; reflexivity).
  rewrite Heval in Hrun. injection Hrun as <-.
  rewrite initialRecommendations_lookup in Hlook. injection Hlook as <-.
  discriminate Hcount.
Qed.

(** ** Catalog entries outside the five stages *)

(** An entry whose stage is neither one of the five nor an inherited
    property name is passed over: the result is that of the catalog
    without it. *)
Lemma unknown_stage_skipped (req : Requirement) (tech : TechniqueDetail)
      (before after : list TechniqueDetail) :
  stage tech ∉ allStages ->
  isInherited (stage tech) = false ->
  getFilteredTechniques (before ++ tech :: after) (Some req)
  = getFilteredTechniques (before ++ after) (Some req).
Proof.
  intros Hstage Hsafe. unfold getFilteredTechniques. f_equal.
  assert (initialRecommendations !! stage tech = None) as Hnone.
  { rewrite initialRecommendations_lookup.
    apply includes_false in Hstage. by rewrite Hstage. }
  revert Hnone. generalize initialRecommendations.
  induction before as [|x before IH]; intros recs Hnone; simpl.
  - by rewrite visit_unknown_stage.
  - destruct (visit req recs x) as [mid|] eqn:Hx; simpl; [|done].
    apply IH. apply (not_elem_of_dom (D := gset string)).
    rewrite (visit_dom _ _ _ _ Hx). by apply not_elem_of_dom.
Qed.

(** C10, at the input on which the code departs from it. The stage of the
    entry is not one of the five, the entry meets all criteria of the
    requirement, and the call raises a [TypeError] instead of passing the
    entry over; the techniques before it make no difference. *)
Theorem inherited_stage_name_raises :
  (stage constructorStage ∉ allStages)
  /\ getFilteredTechniques [userInterviews; constructorStage]
                           (Some noSelection)
     = Throw TypeError.
Proof.
  split.
  - apply includes_false. reflexivity.
  - apply (getFilteredTechniques_throws noSelection constructorStage);
      [list_member | reflexivity | reflexivity].
Qed.

(** ** The examples of the specification *)

Example scenario :
  getFilteredTechniques [userInterviews] (Some scenarioRequirement)
  = Normal (<["Discover" := [Rec.mk "User Interviews" "user-interviews"]]>
              initialRecommendations).
Proof. vm_compute. reflexivity. Qed.

Example early_stage_bypass :
  getFilteredTechniques [discoverMobile] (Some kioskRequirement)
  = Normal (<["Discover" := [Rec.mk "Field Study" "field-study"]]>
              initialRecommendations).
Proof. vm_compute. reflexivity. Qed.

Example late_stage_gating :
  getFilteredTechniques [deliverMobile] (Some desktopRequirement)
  = Normal initialRecommendations.
Proof. vm_compute. reflexivity. Qed.

Example missing_requirement :
  getFilteredTechniques [userInterviews; constructorStage] None
  = Normal initialRecommendations.
Proof. reflexivity. Qed.

(** ** The engine seen from its callers *)

Section Callers.

Context (req : Requirement).

(** Techniques that fail a criterion play no part in the loop. *)
Lemma forEach_visit_passing (allTechniques : list TechniqueDetail)
      (recs : Recommendations) :
  forEach (visit req) allTechniques recs
  = forEach (visit req)
            (filter (fun tech => allCriteria req tech = true) allTechniques)
            recs.
Proof.
  revert recs. induction allTechniques as [|tech rest IH]; intros recs;
    [done|].
  rewrite filter_cons. case_decide as Hc; simpl.
  - destruct (visit req recs tech); simpl; [apply IH | done].
  - apply not_true_is_false in Hc. rewrite (visit_rejected _ _ _ Hc).
    simpl. apply IH.
Qed.

Lemma candidates_passing (key : string) (allTechniques : list TechniqueDetail) :
  candidates req key
             (filter (fun tech => allCriteria req tech = true) allTechniques)
  = candidates req key allTechniques.
Proof.
  induction allTechniques as [|tech rest IH]; [done|].
  rewrite filter_cons, (candidates_cons req key tech rest).
  case_decide as Hc.
  - by rewrite candidates_cons, IH.
  - apply not_true_is_false in Hc. by rewrite Hc, IH.
Qed.

Lemma passing_safe (allTechniques : list TechniqueDetail) :
  ~ raisesOn req allTechniques ->
  stagesSafe (filter (fun tech => allCriteria req tech = true) allTechniques).
Proof.
  intros Hno. apply Forall_forall. intros tech Hin.
  apply list_elem_of_filter in Hin as [Hc Hin].
  apply not_true_is_false. intros Hi. apply Hno.
  apply Exists_exists. eauto.
Qed.

Lemma raisesOn_dec (allTechniques : list TechniqueDetail) :
  raisesOn req allTechniques \/ ~ raisesOn req allTechniques.
Proof.
  unfold raisesOn.
  destruct (decide (Exists (fun tech => allCriteria req tech = true
                                        /\ isInherited (stage tech) = true)
                           allTechniques)); auto.
Qed.

(** The loop from any state, without the assumption on the whole
    catalog. *)
Lemma forEach_visit_returns (allTechniques : list TechniqueDetail) :
  ~ raisesOn req allTechniques ->
  forall recs : Recommendations,
  exists recs' : Recommendations,
    forEach (visit req) allTechniques recs = Normal recs'
    /\ forall key,
        recs' !! key
        = (fun arr => foldl pushNew arr (candidates req key allTechniques))
            <$> recs !! key.
Proof.
  intros Hno recs.
  destruct (forEach_visit req _ (passing_safe _ Hno) recs)
    as [recs' [Hrun Hlook]].
  exists recs'. split; [by rewrite forEach_visit_passing|].
  intros key. by rewrite Hlook, candidates_passing.
Qed.

Lemma getFilteredTechniques_returns (allTechniques : list TechniqueDetail) :
  ~ raisesOn req allTechniques ->
  exists recs : Recommendations,
    getFilteredTechniques allTechniques (Some req) = Normal recs
    /\ forall key,
        recs !! key
        = if includes allStages key
          then Some (stageList req key allTechniques) else None.
Proof.
  intros Hno.
  destruct (getFilteredTechniques_lookup req _ (passing_safe _ Hno))
    as [recs [Hrun Hlook]].
  exists recs. split.
  - rewrite <- Hrun. unfold getFilteredTechniques.
    by rewrite forEach_visit_passing.
  - intros key. rewrite Hlook. unfold stageList.
    by rewrite candidates_passing.
Qed.

Lemma getFilteredTechniques_raises (allTechniques : list TechniqueDetail) :
  raisesOn req allTechniques ->
  getFilteredTechniques allTechniques (Some req) = Throw TypeError.
Proof.
  intros Hr. apply Exists_exists in Hr as [tech [Hin [Hc Hi]]].
  by apply (getFilteredTechniques_throws req tech).
Qed.

(** What a returned result holds under each key. *)
Lemma getFilteredTechniques_result (allTechniques : list TechniqueDetail)
      (recs : Recommendations) :
  getFilteredTechniques allTechniques (Some req) = Normal recs ->
  ~ raisesOn req allTechniques
  /\ forall key,
      recs !! key
      = if includes allStages key
        then Some (stageList req key allTechniques) else None.
Proof.
  intros Hrun. destruct (raisesOn_dec allTechniques) as [Hr|Hno].
  - rewrite (getFilteredTechniques_raises _ Hr) in Hrun. done.
  - split; [done|].
    destruct (getFilteredTechniques_returns _ Hno) as [recs' [Hrun' Hlook]].
    rewrite Hrun in Hrun'. by injection Hrun' as <-.
Qed.

End Callers.

Lemma foldl_pushNew_names (es : list Rec.t) :
  forall (arr : list Rec.t) (n : string),
    n ∈ map Rec.name (foldl pushNew arr es)
    <-> n ∈ map Rec.name arr \/ n ∈ map Rec.name es.
Proof.
  induction es as [|e es IH]; intros arr n; simpl.
  - rewrite elem_of_nil. tauto.
  - rewrite IH, elem_of_cons. unfold pushNew.
    destruct (hasName arr (Rec.name e)) eqn:Hn.
    + apply hasName_true in Hn. split; [tauto|].
      intros [H|[->|H]]; auto.
    + rewrite map_app, elem_of_app. simpl.
      rewrite list_elem_of_singleton. tauto.
Qed.

Lemma foldl_pushNew_known (es : list Rec.t) :
  forall arr : list Rec.t,
    (forall e, e ∈ es -> Rec.name e ∈ map Rec.name arr) ->
    foldl pushNew arr es = arr.
Proof.
  induction es as [|e es IH]; intros arr Hknown; simpl; [done|].
  assert (pushNew arr e = arr) as ->.
  { unfold pushNew.
    assert (hasName arr (Rec.name e) = true) as ->; [|done].
    apply hasName_true, Hknown. left. }
  apply IH. intros e' He'. apply Hknown. by right.
Qed.

Lemma stageList_elem (req : Requirement) (key : string)
      (allTechniques : list TechniqueDetail) (e : Rec.t) :
  e ∈ stageList req key allTechniques ->
  exists tech, tech ∈ allTechniques /\ allCriteria req tech = true
               /\ stage tech = key /\ e = entryOf tech.
Proof.
  intros He. apply candidates_elem.
  eapply elem_of_sublist; [done | apply stageList_sublist].
Qed.

Lemma stageList_names (req : Requirement) (key : string)
      (allTechniques : list TechniqueDetail) (n : string) :
  n ∈ map Rec.name (stageList req key allTechniques)
  <-> exists tech, tech ∈ allTechniques /\ stage tech = key
                   /\ name tech = n /\ allCriteria req tech = true.
Proof.
  unfold stageList. rewrite foldl_pushNew_names. simpl.
  rewrite elem_of_nil, list_elem_of_fmap. split.
  - intros [[]|[e [-> He]]].
    apply candidates_elem in He as [tech [Hin [Hc [Hs ->]]]]. eauto 6.
  - intros [tech [Hin [Hs [Hn Hc]]]]. right. exists (entryOf tech).
    split; [done|]. apply candidates_elem. eauto 6.
Qed.

(** X1. The call raises exactly when the catalog holds a technique that
    meets all five criteria and is filed under an inherited property name;
    in every other case it returns. *)
Theorem getFilteredTechniques_raises_iff (allTechniques : list TechniqueDetail)
        (req : Requirement) :
  getFilteredTechniques allTechniques (Some req) = Throw TypeError
  <-> exists tech, tech ∈ allTechniques /\ allCriteria req tech = true
                   /\ isInherited (stage tech) = true.
Proof.
  split.
  - intros Hthrow. destruct (raisesOn_dec req allTechniques) as [Hr|Hno].
    + by apply Exists_exists in Hr.
    + destruct (getFilteredTechniques_returns req _ Hno) as [recs [Hrun _]].
      congruence.
  - intros Hex. apply getFilteredTechniques_raises. by apply Exists_exists.
Qed.

(** X2. In a returned result, the entries of a stage's array all come from
    catalog techniques of that stage that meet the criteria, and a name is
    in the array exactly when some technique of that name and stage meets
    them. *)
Theorem recommended_entries_and_names (allTechniques : list TechniqueDetail)
        (req : Requirement) (recs : Recommendations) (key : string)
        (arr : list Rec.t) :
  getFilteredTechniques allTechniques (Some req) = Normal recs ->
  recs !! key = Some arr ->
  (forall e, e ∈ arr ->
             exists tech, tech ∈ allTechniques /\ allCriteria req tech = true
                          /\ stage tech = key /\ e = entryOf tech)
  /\ (forall n, n ∈ map Rec.name arr
                <-> exists tech, tech ∈ allTechniques /\ stage tech = key
                                 /\ name tech = n
                                 /\ allCriteria req tech = true).
Proof.
  intros Hrun Harr.
  destruct (getFilteredTechniques_result req _ _ Hrun) as [_ Hlook].
  rewrite Hlook in Harr. destruct (includes allStages key); [|done].
  injection Harr as <-. split.
  - intros e. apply stageList_elem.
  - intros n. apply stageList_names.
Qed.

Lemma recommended_entries_and_names_witness :
  "Card Sorting" ∈ map Rec.name [entryOf cardSortingWeb]
  <-> exists tech, tech ∈ [cardSortingMobile; cardSortingWeb]
                   /\ stage tech = "Develop" /\ name tech = "Card Sorting"
                   /\ allCriteria webRequirement tech = true.
Proof.
  destruct (recommended_entries_and_names
              [cardSortingMobile; cardSortingWeb] webRequirement
              (<["Develop" := [entryOf cardSortingWeb]]>
                 initialRecommendations)
              "Develop" [entryOf cardSortingWeb]) as [_ Hnames].
  - vm_compute. reflexivity.
  - apply lookup_insert_eq.
  - apply Hnames.
Defined.

(** *** The requirement is read through the criteria only *)

Lemma getFilteredTechniques_ext (allTechniques : list TechniqueDetail)
      (req1 req2 : Requirement) :
  (forall tech, allCriteria req1 tech = allCriteria req2 tech) ->
  getFilteredTechniques allTechniques (Some req1)
  = getFilteredTechniques allTechniques (Some req2).
Proof.
  intros Hsame. unfold getFilteredTechniques. f_equal.
  generalize initialRecommendations.
  induction allTechniques as [|tech rest IH]; intros recs; simpl; [done|].
  assert (visit req1 recs tech = visit req2 recs tech) as ->
      by (unfold visit; by rewrite Hsame).
  destruct (visit req2 recs tech); simpl; [apply IH | done].
Qed.

Lemma toLowerCase_empty (s : string) : toLowerCase s = "" <-> s = "".
Proof. by destruct s. Qed.

Lemma same_tags_empty (a b : list string) :
  (forall x, x ∈ a <-> x ∈ b) -> a = [] <-> b = [].
Proof.
  intros Hab. split; intros ->.
  - destruct b as [|y b]; [done|]. exfalso.
    apply (elem_of_nil y), Hab. left.
  - destruct a as [|y a]; [done|]. exfalso.
    apply (elem_of_nil y), Hab. left.
Qed.

Lemma doArraysIntersect_same_tags (a b techArray : option (list string)) :
  (forall x, x ∈ tags a <-> x ∈ tags b) ->
  doArraysIntersect a techArray = doArraysIntersect b techArray.
Proof.
  intros Hab. apply eq_true_iff_eq.
  rewrite !doArraysIntersect_lenient. unfold lenientIntersection.
  rewrite (same_tags_empty _ _ Hab).
  split; (intros [H|[H|[x [Hx Ht]]]]; [tauto | tauto |]);
    right; right; exists x; split; try done; by apply Hab.
Qed.

Lemma doArraysIntersect_widens (a b techArray : option (list string)) :
  widens a b ->
  doArraysIntersect a techArray = true ->
  doArraysIntersect b techArray = true.
Proof.
  rewrite !doArraysIntersect_lenient.
  intros [[_ Hb]|[Ha Hsub]] [H|[H|[x [Hx Ht]]]]; try (by left);
    try (by right; left).
  right. right. exists x. split; [by apply Hsub | done].
Qed.

(** X3. An unset [existing_users] and [existing_users = false] are one
    and the same to the filter: the two calls end alike on every
    catalog. *)
Theorem existing_users_unset_is_false (allTechniques : list TechniqueDetail)
        (ot oc dt : option (list string)) (pt : option string) :
  getFilteredTechniques allTechniques
    (Some {| output_type := ot; outcome := oc; device_type := dt;
             project_type := pt; existing_users := None |})
  = getFilteredTechniques allTechniques
      (Some {| output_type := ot; outcome := oc; device_type := dt;
               project_type := pt; existing_users := Some false |}).
Proof. by apply getFilteredTechniques_ext. Qed.

(** X4. The project type is read without regard to the case of its
    letters: two requirements whose project types, strings of ASCII
    characters, are equal up to case, and that agree on everything else,
    get the same answer on every catalog. *)
Theorem project_type_case_insensitive (allTechniques : list TechniqueDetail)
        (ot oc dt : option (list string)) (eu : option bool)
        (p p' : string) :
  asciiString p -> asciiString p' ->
  equalIgnoringCase p p' ->
  getFilteredTechniques allTechniques
    (Some {| output_type := ot; outcome := oc; device_type := dt;
             project_type := Some p; existing_users := eu |})
  = getFilteredTechniques allTechniques
      (Some {| output_type := ot; outcome := oc; device_type := dt;
               project_type := Some p'; existing_users := eu |}).
Proof.
  intros _ _ Hcase%toLowerCase_eq_iff.
  apply getFilteredTechniques_ext. intros tech.
  unfold allCriteria. f_equal. f_equal. f_equal. f_equal.
  unfold projectTypeMatch. simpl. rewrite Hcase.
  assert (String.eqb p "" = String.eqb p' "") as ->; [|done].
  apply eq_true_iff_eq. rewrite !String.eqb_eq.
  rewrite <- (toLowerCase_empty p), <- (toLowerCase_empty p').
  by rewrite Hcase.
Qed.

Lemma project_type_case_insensitive_witness :
  getFilteredTechniques [newOnly; userInterviews]
    (Some {| output_type := None; outcome := None; device_type := None;
             project_type := Some "NEW"; existing_users := None |})
  = getFilteredTechniques [newOnly; userInterviews]
      (Some {| output_type := None; outcome := None; device_type := None;
               project_type := Some "new"; existing_users := None |}).
Proof.
  apply (project_type_case_insensitive [newOnly; userInterviews]
           None None None None "NEW" "new").
  - ascii_string.
  - ascii_string.
  - simpl. repeat (split; [right; left; vm_compute; lia|]). exact I.
Defined.

(** X5. The three selections are read as sets: requirements whose
    output types, outcomes and device types hold the same tags (in any
    order, repeated or not, an absent array counting as empty) and that
    agree on project type and existing users get the same answer on every
    catalog. *)
Theorem selections_are_sets (allTechniques : list TechniqueDetail)
        (req1 req2 : Requirement) :
  (forall x, x ∈ tags (output_type req1) <-> x ∈ tags (output_type req2)) ->
  (forall x, x ∈ tags (outcome req1) <-> x ∈ tags (outcome req2)) ->
  (forall x, x ∈ tags (device_type req1) <-> x ∈ tags (device_type req2)) ->
  project_type req1 = project_type req2 ->
  existing_users req1 = existing_users req2 ->
  getFilteredTechniques allTechniques (Some req1)
  = getFilteredTechniques allTechniques (Some req2).
Proof.
  intros Hot Hoc Hdt Hpt Heu. apply getFilteredTechniques_ext. intros tech.
  unfold allCriteria, projectTypeMatch, outcomeMatch, deviceTypeMatch,
    outputTypeMatch, userBaseMatch, userContext.
  rewrite Hpt, Heu.
  rewrite (doArraysIntersect_same_tags _ _ (outcomes tech) Hoc).
  rewrite (doArraysIntersect_same_tags _ _ (device_types tech) Hdt).
  by rewrite (doArraysIntersect_same_tags _ _ (output_types tech) Hot).
Qed.

Lemma selections_are_sets_witness :
  getFilteredTechniques [userInterviews; deliverMobile]
    (Some {| output_type := Some ["Web App"; "Mobile App"; "Web App"];
             outcome := None; device_type := Some [];
             project_type := None; existing_users := None |})
  = getFilteredTechniques [userInterviews; deliverMobile]
      (Some {| output_type := Some ["Mobile App"; "Web App"];
               outcome := Some []; device_type := None;
               project_type := None; existing_users := None |}).
Proof.
  apply selections_are_sets; try reflexivity; intros x; simpl;
    rewrite ?elem_of_cons, ?elem_of_nil; tauto.
Defined.

Lemma candidates_ext (req1 req2 : Requirement) (key : string)
      (allTechniques : list TechniqueDetail) :
  (forall tech, stage tech = key ->
                allCriteria req1 tech = allCriteria req2 tech) ->
  candidates req1 key allTechniques = candidates req2 key allTechniques.
Proof.
  intros Hsame. induction allTechniques as [|tech rest IH]; [done|].
  rewrite !candidates_cons, IH.
  destruct (String.eqb (stage tech) key) eqn:Hk.
  - apply String.eqb_eq in Hk. by rewrite (Hsame tech Hk).
  - by rewrite !andb_false_r.
Qed.

(** X6. The arrays of Discover, Define and Design do not depend on the
    selected output types: two requirements that differ in [output_type]
    only get the same array for each early stage, whenever both calls
    return. *)
Theorem early_stages_ignore_output_type (allTechniques : list TechniqueDetail)
        (ot ot' oc dt : option (list string)) (pt : option string)
        (eu : option bool) (recs recs' : Recommendations) (key : string) :
  getFilteredTechniques allTechniques
    (Some {| output_type := ot; outcome := oc; device_type := dt;
             project_type := pt; existing_users := eu |}) = Normal recs ->
  getFilteredTechniques allTechniques
    (Some {| output_type := ot'; outcome := oc; device_type := dt;
             project_type := pt; existing_users := eu |}) = Normal recs' ->
  key ∈ earlyStages ->
  recs !! key = recs' !! key.
Proof.
  intros Hrun Hrun' Hkey.
  destruct (getFilteredTechniques_result _ _ _ Hrun) as [_ ->].
  destruct (getFilteredTechniques_result _ _ _ Hrun') as [_ ->].
  destruct (includes allStages key); [|done]. f_equal.
  unfold stageList. f_equal. apply candidates_ext. intros tech Hs.
  unfold allCriteria, outputTypeMatch, isEarlyStage. rewrite Hs.
  apply includes_true in Hkey. by rewrite Hkey.
Qed.

Lemma early_stages_ignore_output_type_witness :
  (<["Discover" := [entryOf discoverMobile]]> initialRecommendations
   : Recommendations) !! "Discover"
  = (<["Deliver" := [entryOf deliverMobile]]>
       (<["Discover" := [entryOf discoverMobile]]> initialRecommendations)
     : Recommendations) !! "Discover".
Proof.
  apply (early_stages_ignore_output_type [discoverMobile; deliverMobile]
           (Some ["Kiosk"]) (Some ["Mobile App"]) None None None None).
  - vm_compute. reflexivity.
  - vm_compute. reflexivity.
  - list_member.
Defined.

(** X7. Widening a selection never loses a recommendation. Take two
    requirements with the same project type and existing users such that,
    for each of the three selections, either both leave it empty or the
    first's holds a tag and every tag of the first's is in the second's.
    Then every name recommended under a stage for the first is
    recommended under that stage for the second, whenever both calls
    return. (Going from an empty selection to a non-empty one is no
    widening: it can drop techniques.) *)
Theorem widening_keeps_names (allTechniques : list TechniqueDetail)
        (req1 req2 : Requirement) (recs1 recs2 : Recommendations)
        (key : string) (arr1 : list Rec.t) :
  widens (output_type req1) (output_type req2) ->
  widens (outcome req1) (outcome req2) ->
  widens (device_type req1) (device_type req2) ->
  project_type req1 = project_type req2 ->
  existing_users req1 = existing_users req2 ->
  getFilteredTechniques allTechniques (Some req1) = Normal recs1 ->
  getFilteredTechniques allTechniques (Some req2) = Normal recs2 ->
  recs1 !! key = Some arr1 ->
  exists arr2, recs2 !! key = Some arr2
               /\ map Rec.name arr1 ⊆ map Rec.name arr2.
Proof.
  intros Hot Hoc Hdt Hpt Heu Hrun1 Hrun2 Harr1.
  destruct (getFilteredTechniques_result _ _ _ Hrun1) as [_ Hlook1].
  destruct (getFilteredTechniques_result _ _ _ Hrun2) as [_ Hlook2].
  rewrite Hlook1 in Harr1. rewrite Hlook2.
  destruct (includes allStages key); [|done]. injection Harr1 as <-.
  eexists. split; [done|]. intros n.
  rewrite !stageList_names. intros [tech [Hin [Hs [Hn Hc]]]].
  exists tech. repeat split; try done.
  apply allCriteria_true in Hc as [Hp [Hu [Ho [Hd Hout]]]].
  apply allCriteria_true. repeat split.
  - unfold projectTypeMatch in *. by rewrite <- Hpt.
  - unfold userBaseMatch, userContext in *. by rewrite <- Heu.
  - unfold outcomeMatch in *. by eapply doArraysIntersect_widens.
  - unfold deviceTypeMatch in *. by eapply doArraysIntersect_widens.
  - unfold outputTypeMatch in *. apply orb_true_iff.
    apply orb_true_iff in Hout as [He|Hi]; [by left | right].
    by eapply doArraysIntersect_widens.
Qed.

Lemma widening_keeps_names_witness :
  exists arr2,
    (<["Deliver" := [entryOf deliverMobile]]> initialRecommendations
     : Recommendations) !! "Deliver" = Some arr2
    /\ map Rec.name [entryOf deliverMobile] ⊆ map Rec.name arr2.
Proof.
  assert (widens (Some []) (Some [])) as Hrefl by (by left).
  apply (widening_keeps_names [deliverMobile]
           {| output_type := Some ["Mobile App"];
              outcome := Some []; device_type := Some [];
              project_type := None; existing_users := None |}
           {| output_type := Some ["Mobile App"; "Kiosk"];
              outcome := Some []; device_type := Some [];
              project_type := None; existing_users := None |}
           (<["Deliver" := [entryOf deliverMobile]]> initialRecommendations)
           (<["Deliver" := [entryOf deliverMobile]]> initialRecommendations)
           "Deliver" [entryOf deliverMobile]).
  - right. split; simpl; [discriminate|]. intros x.
    rewrite !elem_of_cons. tauto.
  - apply Hrefl.
  - apply Hrefl.
  - reflexivity.
  - reflexivity.
  - vm_compute. reflexivity.
  - vm_compute. reflexivity.
  - apply lookup_insert_eq.
Defined.

Lemma stageList_repeat (req : Requirement) (key : string)
      (allTechniques extra : list TechniqueDetail) :
  extra ⊆ allTechniques ->
  stageList req key (allTechniques ++ extra) = stageList req key allTechniques.
Proof.
  intros Hsub. unfold stageList. rewrite candidates_app, foldl_app.
  apply foldl_pushNew_known. intros e He.
  apply foldl_pushNew_names. right. apply list_elem_of_fmap.
  exists e. split; [done|].
  apply candidates_elem in He as [tech [Hin [Hc [Hs ->]]]].
  apply candidates_elem. exists tech. auto.
Qed.

(** X8. Listing techniques again changes nothing: appending to the
    catalog entries that it already holds leaves the outcome of the call
    as it was, for every requirement, a missing one included. *)
Theorem repeated_entries_change_nothing
        (allTechniques extra : list TechniqueDetail)
        (requirement : option Requirement) :
  extra ⊆ allTechniques ->
  getFilteredTechniques (allTechniques ++ extra) requirement
  = getFilteredTechniques allTechniques requirement.
Proof.
  intros Hsub. destruct requirement as [req|]; [|done].
  destruct (raisesOn_dec req allTechniques) as [Hr|Hno].
  - rewrite (getFilteredTechniques_raises req _ Hr).
    apply getFilteredTechniques_raises. unfold raisesOn in *.
    apply Exists_app. by left.
  - assert (~ raisesOn req (allTechniques ++ extra)) as Hno'.
    { unfold raisesOn in *. rewrite Exists_app. intros [H|H]; [done|].
      apply Hno. apply Exists_exists in H as [tech [Hin H]].
      apply Exists_exists. exists tech. split; [by apply Hsub | done]. }
    destruct (getFilteredTechniques_returns req _ Hno) as [recs [-> Hlook]].
    destruct (getFilteredTechniques_returns req _ Hno')
      as [recs' [-> Hlook']].
    f_equal. apply map_eq. intros key. rewrite Hlook, Hlook'.
    destruct (includes allStages key); [|done].
    by rewrite stageList_repeat.
Qed.

Lemma repeated_entries_change_nothing_witness :
  getFilteredTechniques
    ([userInterviews; deliverMobile] ++ [userInterviews; deliverMobile])
    (Some noSelection)
  = getFilteredTechniques [userInterviews; deliverMobile] (Some noSelection).
Proof. by apply repeated_entries_change_nothing. Defined.

Lemma recommended_entries_lookup (allTechniques : list TechniqueDetail)
      (req : Requirement) (recs : Recommendations) (key : string)
      (arr : list Rec.t) (e : Rec.t) :
  getFilteredTechniques allTechniques (Some req) = Normal recs ->
  recs !! key = Some arr ->
  e ∈ arr ->
  exists tech, tech ∈ allTechniques /\ allCriteria req tech = true
               /\ stage tech = key /\ e = entryOf tech.
Proof.
  intros Hrun Harr.
  destruct (getFilteredTechniques_result req _ _ Hrun) as [_ Hlook].
  rewrite Hlook in Harr. destruct (includes allStages key); [|done].
  injection Harr as <-. apply stageList_elem.
Qed.

Lemma slugs_determine_techniques (allTechniques : list TechniqueDetail)
      (t1 t2 : TechniqueDetail) :
  NoDup (map slug allTechniques) ->
  t1 ∈ allTechniques -> t2 ∈ allTechniques -> slug t1 = slug t2 -> t1 = t2.
Proof.
  induction allTechniques as [|x rest IH]; intros Hnd H1 H2 Hslug.
  - by apply elem_of_nil in H1.
  - simpl in Hnd. apply NoDup_cons in Hnd as [Hx Hnd].
    apply elem_of_cons in H1 as [->|H1], H2 as [->|H2]; auto.
    + exfalso. apply Hx. rewrite Hslug. apply list_elem_of_fmap. eauto.
    + exfalso. apply Hx. rewrite <- Hslug. apply list_elem_of_fmap. eauto.
Qed.

(** X9. Every recommendation leads somewhere: the slug of an entry of a
    returned result is found in the catalog by the technique page's
    lookup, and when the slugs of the catalog are distinct the technique
    found is the recommended one, of that name and stage and meeting the
    criteria. *)
Theorem recommended_slug_resolves (allTechniques : list TechniqueDetail)
        (req : Requirement) (recs : Recommendations) (key : string)
        (arr : list Rec.t) (e : Rec.t) :
  getFilteredTechniques allTechniques (Some req) = Normal recs ->
  recs !! key = Some arr ->
  e ∈ arr ->
  exists tech,
    findBySlug allTechniques (Rec.slug e) = Some tech
    /\ tech ∈ allTechniques
    /\ slug tech = Rec.slug e
    /\ (NoDup (map slug allTechniques) ->
        name tech = Rec.name e /\ stage tech = key
        /\ allCriteria req tech = true).
Proof.
  intros Hrun Harr He.
  destruct (recommended_entries_lookup allTechniques req recs key arr e
              Hrun Harr He) as [orig [Hin [Hc [Hs ->]]]].
  simpl. unfold findBySlug.
  destruct (List.find (fun t => String.eqb (slug t) (slug orig)) allTechniques)
    as [tech|] eqn:Hfind.
  - apply find_some in Hfind as [Hin' Hslug].
    apply String.eqb_eq in Hslug. apply list_elem_of_In in Hin'.
    exists tech. repeat split; try done;
      assert (tech = orig) as -> by (by eapply slugs_determine_techniques);
      done.
  - exfalso. apply list_elem_of_In in Hin.
    pose proof (find_none _ _ Hfind orig Hin) as Hneq. simpl in Hneq.
    by rewrite String.eqb_refl in Hneq.
Qed.

Lemma recommended_slug_resolves_witness :
  exists tech,
    findBySlug [cardSortingMobile; cardSortingWeb] "card-sorting-web"
    = Some tech
    /\ tech ∈ [cardSortingMobile; cardSortingWeb]
    /\ slug tech = "card-sorting-web".
Proof.
  destruct (recommended_slug_resolves
              [cardSortingMobile; cardSortingWeb] webRequirement
              (<["Develop" := [entryOf cardSortingWeb]]>
                 initialRecommendations)
              "Develop" [entryOf cardSortingWeb] (entryOf cardSortingWeb))
    as [tech [Hfind [Hin [Hslug _]]]].
  - vm_compute. reflexivity.
  - apply lookup_insert_eq.
  - left.
  - exists tech. auto.
Defined.

(** ** The tag checkboxes of the requirements form *)

Lemma includes_app (l1 l2 : list string) (x : string) :
  includes (l1 ++ l2) x = includes l1 x || includes l2 x.
Proof. unfold includes. apply existsb_app. Qed.

Lemma includes_filter_ne (l : list string) (item x : string) :
  includes (List.filter (fun v => negb (String.eqb v item)) l) x
  = includes l x && negb (String.eqb x item).
Proof.
  induction l as [|y l IH]; simpl; [done|].
  destruct (String.eqb y item) eqn:Hy; simpl.
  - rewrite IH. apply String.eqb_eq in Hy. subst y.
    unfold includes at 2. simpl. fold (includes l x).
    destruct (String.eqb x item); simpl; [|done].
    by rewrite !andb_false_r.
  - unfold includes at 1 2. simpl. fold (includes l x).
    fold (includes (List.filter (fun v => negb (String.eqb v item)) l) x).
    rewrite IH. destruct (String.eqb x y) eqn:Hx; simpl; [|done].
    apply String.eqb_eq in Hx. subst y. by rewrite Hy.
Qed.

(** X10. A click acts on its own box and no other: after the handler ran
    with [checked], the box of [item] shows [checked], and the box of every
    other tag shows what it showed before. *)
Theorem click_sets_one_box (value : option (list string)) (item : string)
        (checked : bool) :
  isChecked (onCheckedChange value item checked) item = checked
  /\ forall other, other <> item ->
       isChecked (onCheckedChange value item checked) other
       = isChecked value other.
Proof.
  unfold onCheckedChange, isChecked. destruct checked; simpl.
  - split.
    + rewrite includes_app. unfold includes at 2. simpl.
      rewrite String.eqb_refl. apply orb_true_r.
    + intros other Hne. rewrite includes_app. unfold includes at 2. simpl.
      apply String.eqb_neq in Hne. rewrite Hne, !orb_false_r.
      by destruct value.
  - destruct value as [v|]; simpl; [|done]. split.
    + by rewrite includes_filter_ne, String.eqb_refl, andb_false_r.
    + intros other Hne. rewrite includes_filter_ne.
      apply String.eqb_neq in Hne. by rewrite Hne, andb_true_r.
Qed.

Lemma filter_ne_absent (l : list string) (item : string) :
  includes l item = false ->
  List.filter (fun v => negb (String.eqb v item)) l = l.
Proof.
  induction l as [|y l IH]; simpl; [done|].
  unfold includes. simpl. fold (includes l item).
  intros H. apply orb_false_iff in H as [Hy Hl].
  rewrite String.eqb_sym in Hy. rewrite Hy. simpl. by rewrite IH.
Qed.

(** X11. Checking a tag that was not selected and unchecking it again
    gives the selection back, tag for tag and in the same order. *)
Theorem uncheck_undoes_check (value : option (list string)) (item : string) :
  isChecked value item = false ->
  tags (onCheckedChange (onCheckedChange value item true) item false)
  = tags value.
Proof.
  intros Hno. unfold onCheckedChange. simpl.
  rewrite List.filter_app. simpl. rewrite String.eqb_refl. simpl.
  rewrite app_nil_r. apply filter_ne_absent.
  by destruct value.
Qed.

Lemma uncheck_undoes_check_witness :
  tags (onCheckedChange
          (onCheckedChange (Some ["Qualitative"; "Insight"]) "Quantitative"
                           true)
          "Quantitative" false)
  = ["Qualitative"; "Insight"].
Proof.
  apply (uncheck_undoes_check (Some ["Qualitative"; "Insight"])
                              "Quantitative").
  reflexivity.
Defined.

(** X12. Unchecking the only selected tag does not narrow the
    recommendations to nothing, it lifts the criterion: the selection
    becomes empty, and an empty selection matches every technique. *)
Theorem unchecking_last_tag_lifts_criterion (v : list string) (item : string)
        (techArray : option (list string)) :
  (forall x, x ∈ v -> x = item) ->
  tags (onCheckedChange (Some v) item false) = []
  /\ doArraysIntersect (onCheckedChange (Some v) item false) techArray = true.
Proof.
  intros Honly.
  assert (tags (onCheckedChange (Some v) item false) = []) as Hempty.
  { unfold onCheckedChange. simpl.
    induction v as [|y v IH]; simpl; [done|].
    rewrite (Honly y) by left. rewrite String.eqb_refl. simpl.
    apply IH. intros x Hx. apply Honly. by right. }
  split; [done|]. by apply doArraysIntersect_empty_req.
Qed.

Lemma unchecking_last_tag_lifts_criterion_witness :
  doArraysIntersect (onCheckedChange (Some ["Kiosk"]) "Kiosk" false)
                    (Some ["Mobile"]) = true.
Proof.
  apply (unchecking_last_tag_lifts_criterion ["Kiosk"] "Kiosk").
  intros x Hx. by apply list_elem_of_singleton in Hx.
Defined.

(** ** The project search of the dashboard *)

Lemma append_cons (c : ascii) (s t : string) :
  (String c s +:+ t = String c (s +:+ t))%string.
Proof. reflexivity. Qed.

Lemma append_nil_l (t : string) : ("" +:+ t = t)%string.
Proof. reflexivity. Qed.

Lemma prefix_true (p s : string) :
  String.prefix p s = true <-> exists rest, s = (p +:+ rest)%string.
Proof.
  revert s. induction p as [|c p IH]; intros s.
  - split; [by exists s | by destruct s].
  - destruct s as [|d s]; simpl.
    + split; [done | by intros [rest ?]].
    + destruct (Ascii.ascii_dec c d) as [->|Hne].
      * rewrite IH. split; intros [rest H]; exists rest;
          rewrite append_cons in *; congruence.
      * split; [done|]. intros [rest H]. rewrite append_cons in H.
        congruence.
Qed.

Lemma stringIncludes_cons (c : ascii) (s search : string) :
  stringIncludes (String c s) search
  = String.prefix search (String c s) || stringIncludes s search.
Proof. reflexivity. Qed.

Lemma stringIncludes_nil (search : string) :
  stringIncludes "" search = String.prefix search "".
Proof. unfold stringIncludes. apply orb_false_r. Qed.

Lemma stringIncludes_true (s search : string) :
  stringIncludes s search = true
  <-> exists before after, s = (before +:+ search +:+ after)%string.
Proof.
  induction s as [|c s IH].
  - rewrite stringIncludes_nil, prefix_true. split.
    + intros [rest H]. by exists "", rest.
    + intros [before [after H]]. destruct before; [eauto | done].
  - rewrite stringIncludes_cons, orb_true_iff, prefix_true, IH. split.
    + intros [[rest H]|[before [after H]]].
      * by exists "", rest.
      * exists (String c before), after. by rewrite append_cons, H.
    + intros [before [after H]]. destruct before as [|d before].
      * left. eauto.
      * right. rewrite append_cons in H. injection H as -> H. eauto.
Qed.

Lemma filter_sublist {A : Type} (p : A -> bool) (l : list A) :
  List.filter p l `sublist_of` l.
Proof.
  induction l as [|x l IH]; simpl; [constructor|].
  destruct (p x); [by apply sublist_skip | by apply sublist_cons].
Qed.

Lemma toLowerCase_append (a b : string) :
  toLowerCase (a +:+ b) = (toLowerCase a +:+ toLowerCase b)%string.
Proof.
  induction a as [|c a IH]; [done|].
  rewrite append_cons. simpl. by rewrite IH, append_cons.
Qed.

Lemma toLowerCase_split (x y : string) :
  forall n, toLowerCase n = (x +:+ y)%string ->
            exists a b, n = (a +:+ b)%string
                        /\ toLowerCase a = x /\ toLowerCase b = y.
Proof.
  induction x as [|c x IH]; intros n Hn.
  - by exists "", n.
  - rewrite append_cons in Hn. destruct n as [|d n]; [done|].
    simpl in Hn. injection Hn as Hd Hn.
    destruct (IH n Hn) as [a [b [-> [Ha Hb]]]].
    exists (String d a), b. rewrite append_cons. simpl.
    by rewrite Hd, Ha.
Qed.

(** The lower-cased name contains the lower-cased term exactly when the
    name has a stretch equal to the term up to case. *)
Lemma lowercase_includes (n term : string) :
  stringIncludes (toLowerCase n) (toLowerCase term) = true
  <-> exists before found after,
        n = (before +:+ found +:+ after)%string
        /\ equalIgnoringCase found term.
Proof.
  rewrite stringIncludes_true. split.
  - intros [x [y Hn]].
    apply toLowerCase_split in Hn as [before [tail [-> [_ Htail]]]].
    apply toLowerCase_split in Htail as [found [after [-> [Hfound _]]]].
    exists before, found, after. by rewrite <- toLowerCase_eq_iff.
  - intros [before [found [after [-> Heq]]]].
    apply toLowerCase_eq_iff in Heq.
    exists (toLowerCase before), (toLowerCase after).
    by rewrite !toLowerCase_append, Heq.
Qed.

(** X13. For a search term and project names made of ASCII characters,
    the search keeps the projects in their order and lists exactly those
    whose name has a stretch equal to the search term up to the case of
    the letters. *)
Theorem search_lists_matching_names (projects : list Project.t)
        (searchTerm : string) :
  asciiString searchTerm ->
  (forall project n, project ∈ projects ->
                     Project.project_name project = Some n ->
                     asciiString n) ->
  filteredProjects projects searchTerm `sublist_of` projects
  /\ forall project,
       project ∈ filteredProjects projects searchTerm
       <-> project ∈ projects
           /\ exists n before found after,
                Project.project_name project = Some n
                /\ n = (before +:+ found +:+ after)%string
                /\ equalIgnoringCase found searchTerm.
Proof.
  intros _ _. split; [apply filter_sublist|]. intros project.
  unfold filteredProjects. rewrite !list_elem_of_In, filter_In.
  destruct (Project.project_name project) as [n|].
  - rewrite lowercase_includes. split.
    + intros [Hin [before [found [after H]]]]. eauto 8.
    + intros [Hin [n' [before [found [after [Hn H]]]]]].
      injection Hn as <-. eauto 6.
  - split; [by intros [_ ?] | by intros [_ [n [? [? [? [? _]]]]]]].
Qed.

Lemma search_lists_matching_names_witness :
  Project.mk "p1" (Some "AuthNexus Redesign")
  ∈ filteredProjects
      [Project.mk "p1" (Some "AuthNexus Redesign"); Project.mk "p2" None;
       Project.mk "p3" (Some "Checkout flow")]
      "NEXUS".
Proof.
  apply (search_lists_matching_names
           [Project.mk "p1" (Some "AuthNexus Redesign"); Project.mk "p2" None;
            Project.mk "p3" (Some "Checkout flow")]
           "NEXUS").
  - ascii_string.
  - intros project n Hin Hn.
    rewrite !elem_of_cons, elem_of_nil in Hin.
    destruct Hin as [->|[->|[->|[]]]]; simpl in Hn; try done;
      injection Hn as <-; ascii_string.
  - split; [left|].
    exists "AuthNexus Redesign", "Auth", "Nexus", " Redesign".
    split; [reflexivity|]. split; [reflexivity|].
    simpl. repeat (split; [first [by left | right; right; vm_compute; lia]|]).
    exact I.
Defined.

Lemma search_names_present (projects : list Project.t) (searchTerm : string)
      (project : Project.t) :
  project ∈ filteredProjects projects searchTerm ->
  exists n, Project.project_name project = Some n.
Proof.
  unfold filteredProjects. rewrite list_elem_of_In, filter_In.
  intros [_ H]. destruct (Project.project_name project); [eauto | done].
Qed.

(** X14. With the search box empty the list is that of the projects that
    have a name: a project without a name is not listed then, nor for any
    other search term. *)
Theorem unnamed_projects_never_listed (projects : list Project.t) :
  filteredProjects projects ""
  = List.filter (fun project =>
                   match Project.project_name project with
                   | Some _ => true
                   | None => false
                   end) projects
  /\ forall searchTerm project,
       project ∈ filteredProjects projects searchTerm ->
       Project.project_name project <> None.
Proof.
  split.
  - unfold filteredProjects. apply filter_ext. intros project.
    destruct (Project.project_name project) as [n|]; [|done].
    simpl. by destruct (toLowerCase n).
  - intros searchTerm project Hin.
    apply search_names_present in Hin. by destruct Hin as [n ->].
Qed.

Example search_by_name :
  filteredProjects
    [Project.mk "p1" (Some "AuthNexus Redesign"); Project.mk "p2" None;
     Project.mk "p3" (Some "Checkout flow")]
    "NEXUS"
  = [Project.mk "p1" (Some "AuthNexus Redesign")].
Proof. reflexivity. Qed.

(** ** The display name of the sidebar *)

Lemma chars_append (a b : string) :
  list_ascii_of_string (a +:+ b)
  = list_ascii_of_string a ++ list_ascii_of_string b.
Proof.
  induction a as [|c a IH]; [done|].
  rewrite append_cons. simpl. by rewrite IH.
Qed.

Lemma splitOn_cons (isSep : ascii -> bool) (s : string) :
  exists part parts, splitOn isSep s = part :: parts.
Proof.
  destruct s as [|c s]; simpl; [eauto|].
  destruct (isSep c); eauto.
Qed.

(** No piece holds a separator, and every character of a piece is one of
    the string. *)
Lemma splitOn_chars (isSep : ascii -> bool) (s : string) :
  forall part c,
    part ∈ splitOn isSep s -> c ∈ list_ascii_of_string part ->
    isSep c = false /\ c ∈ list_ascii_of_string s.
Proof.
  induction s as [|d s IH]; intros part c Hpart Hc; simpl in Hpart.
  - apply list_elem_of_singleton in Hpart. subst part.
    by apply elem_of_nil in Hc.
  - destruct (splitOn_cons isSep s) as [p [ps Hsplit]].
    rewrite Hsplit in Hpart, IH. simpl in Hpart.
    destruct (isSep d) eqn:Hd.
    + apply elem_of_cons in Hpart as [->|Hpart].
      * by apply elem_of_nil in Hc.
      * destruct (IH part c Hpart Hc) as [H1 H2].
        split; [done|]. simpl. by right.
    + apply elem_of_cons in Hpart as [->|Hpart].
      * simpl in Hc. apply elem_of_cons in Hc as [->|Hc].
        -- split; [done|]. simpl. left.
        -- destruct (IH p c) as [H1 H2]; [left | done |].
           split; [done|]. simpl. by right.
      * destruct (IH part c) as [H1 H2]; [by right | done |].
        split; [done|]. simpl. by right.
Qed.

Lemma upperAscii_separators (c : ascii) :
  isAt (upperAscii c) = isAt c
  /\ isNameSeparator (upperAscii c) = isNameSeparator c.
Proof.
  destruct c as [[] [] [] [] [] [] [] []]; split; reflexivity.
Qed.

Lemma capitalize_chars (part : string) (c : ascii) :
  c ∈ list_ascii_of_string (capitalize part) ->
  exists c0, c0 ∈ list_ascii_of_string part /\ (c = c0 \/ c = upperAscii c0).
Proof.
  destruct part as [|d part]; simpl; [by intros ?%elem_of_nil|].
  intros [->|Hc]%elem_of_cons.
  - exists d. split; [left | by right].
  - exists c. split; [by right | by left].
Qed.

Lemma concat_chars (sep : string) (parts : list string) (c : ascii) :
  c ∈ list_ascii_of_string (String.concat sep parts) ->
  c ∈ list_ascii_of_string sep
  \/ exists part, part ∈ parts /\ c ∈ list_ascii_of_string part.
Proof.
  induction parts as [|p parts IH]; simpl.
  - by intros ?%elem_of_nil.
  - destruct parts as [|q parts].
    + intros Hc. right. exists p. split; [left | done].
    + rewrite !chars_append, !elem_of_app.
      intros [Hc|[Hc|Hc]].
      * right. exists p. split; [left | done].
      * by left.
      * destruct (IH Hc) as [H|[part [Hin H]]]; [by left|].
        right. exists part. split; [by right | done].
Qed.

(** X15. The displayed name holds no ['@'], ['.'], ['_'] or ['-'],
    whatever the email address. *)
Theorem derived_name_has_no_separators (email : string) (c : ascii) :
  c ∈ list_ascii_of_string (deriveNameFromEmail email) ->
  isAt c = false /\ isNameSeparator c = false.
Proof.
  unfold deriveNameFromEmail. intros Hc.
  apply concat_chars in Hc as [Hc|[part [Hpart Hc]]].
  { simpl in Hc. apply list_elem_of_singleton in Hc. by subst c. }
  apply list_elem_of_fmap in Hpart as [raw [-> Hraw]].
  apply capitalize_chars in Hc as [c0 [Hc0 Hc]].
  destruct (splitOn_chars _ _ _ _ Hraw Hc0) as [Hsep Hname].
  assert (isAt c0 = false) as Hat.
  { destruct (splitOn_cons isAt email) as [p [ps Hsplit]].
    rewrite Hsplit in Hname. simpl in Hname.
    apply (splitOn_chars isAt email p c0); [|done].
    rewrite Hsplit. left. }
  destruct (upperAscii_separators c0) as [Hu1 Hu2].
  destruct Hc as [->| ->]; [done|]. by rewrite Hu1, Hu2.
Qed.

Lemma derived_name_has_no_separators_witness :
  isAt "J" = false /\ isNameSeparator "J" = false.
Proof.
  apply (derived_name_has_no_separators "john.doe@example.com" "J").
  simpl. left.
Defined.

Lemma splitOn_clean (isSep : ascii -> bool) (w : string) :
  (forall c, c ∈ list_ascii_of_string w -> isSep c = false) ->
  splitOn isSep w = [w].
Proof.
  induction w as [|d w IH]; intros Hclean; simpl; [done|].
  rewrite (Hclean d) by (simpl; left).
  rewrite IH; [done|]. intros c Hc. apply Hclean. simpl. by right.
Qed.

Lemma splitOn_clean_sep (isSep : ascii -> bool) (w : string) (sep : ascii)
      (rest : string) :
  (forall c, c ∈ list_ascii_of_string w -> isSep c = false) ->
  isSep sep = true ->
  splitOn isSep (w +:+ String sep rest) = w :: splitOn isSep rest.
Proof.
  intros Hclean Hsep. induction w as [|d w IH].
  - rewrite append_nil_l. simpl. by rewrite Hsep.
  - rewrite append_cons. simpl. rewrite (Hclean d) by (simpl; left).
    rewrite IH; [done|]. intros c Hc. apply Hclean. simpl. by right.
Qed.

Lemma isSmall_dec (c : ascii) : isSmall c \/ ~ isSmall c.
Proof. unfold isSmall. lia. Qed.

Lemma upperAscii_capitalOf (c C : ascii) :
  capitalOf c C <-> C = upperAscii c.
Proof.
  unfold capitalOf, upperAscii.
  pose proof (nat_ascii_bounded c) as Hb.
  destruct (isSmall_dec c) as [Hc|Hc].
  - destruct Hc as [H1 H2].
    assert (Nat.leb 97 (nat_of_ascii c) && Nat.leb (nat_of_ascii c) 122
            = true) as ->.
    { apply andb_true_iff. split; by apply Nat.leb_le. }
    split.
    + intros [[_ HC]|[Hn _]]; [|exfalso; apply Hn; by split].
      apply ascii_of_code. lia.
    + intros ->. left. split; [by split|].
      rewrite nat_ascii_embedding; lia.
  - assert (Nat.leb 97 (nat_of_ascii c) && Nat.leb (nat_of_ascii c) 122
            = false) as ->.
    { apply not_true_is_false. intros H. apply andb_true_iff in H as [H1 H2].
      apply Hc. split; by apply Nat.leb_le. }
    split; [by intros [[? _]|[_ ?]] | intros ->; by right].
Qed.

Lemma capitalize_capitalizedWord (word shown : string) :
  capitalizedWord word shown <-> shown = capitalize word.
Proof.
  destruct word as [|c tail], shown as [|C tail']; simpl; try done.
  rewrite upperAscii_capitalOf. split.
  - by intros [-> ->].
  - intros H. by injection H.
Qed.

Lemma capitalizedWords (words shown : list string) :
  Forall2 capitalizedWord words shown <-> shown = map capitalize words.
Proof.
  split.
  - induction 1 as [|w s ws ss Hw _ IH]; [done|]. simpl.
    apply capitalize_capitalizedWord in Hw. by subst.
  - intros ->. induction words as [|w ws IH]; constructor; [|done].
    by apply capitalize_capitalizedWord.
Qed.

Lemma splitOn_joinWords (isSep : ascii -> bool)
      (rest : list (ascii * string)) :
  forall word,
    Forall (fun sw => isSep (fst sw) = true) rest ->
    (forall v c, v ∈ word :: map snd rest -> c ∈ list_ascii_of_string v ->
                 isSep c = false) ->
    splitOn isSep (joinWords word rest) = word :: map snd rest.
Proof.
  induction rest as [|[sep next] rest IH]; intros word Hseps Hclean; simpl.
  - apply splitOn_clean. intros c. apply Hclean. left.
  - apply Forall_cons in Hseps as [Hsep Hseps]. simpl in Hsep.
    rewrite splitOn_clean_sep; [|intros c; apply Hclean; left | done].
    rewrite IH; [done | done |].
    intros v c Hv. apply Hclean. by right.
Qed.

Lemma joinWords_chars (rest : list (ascii * string)) :
  forall word c,
    c ∈ list_ascii_of_string (joinWords word rest) ->
    (exists v, v ∈ word :: map snd rest /\ c ∈ list_ascii_of_string v)
    \/ c ∈ map fst rest.
Proof.
  induction rest as [|[sep next] rest IH]; intros word c; simpl.
  - intros Hc. left. exists word. split; [left | done].
  - rewrite chars_append, elem_of_app. simpl. rewrite elem_of_cons.
    intros [Hc|[->|Hc]].
    + left. exists word. split; [left | done].
    + right. left.
    + destruct (IH next c Hc) as [[v [Hv Hcv]]|Hsep].
      * left. exists v. split; [by right | done].
      * right. by right.
Qed.

(** X16. An address whose local part is made of words of ASCII
    characters, joined by separators (any of ['.'], ['_'] and ['-'], mixed
    at will), is shown as those words, each with its first character
    replaced by its capital, joined by single spaces; the domain plays no
    part. *)
Theorem derived_name_of_words (word : string) (rest : list (ascii * string))
        (domain : string) :
  Forall (fun sw => isNameSeparator (fst sw) = true) rest ->
  (forall v, v ∈ word :: map snd rest ->
             asciiString v
             /\ forall c, c ∈ list_ascii_of_string v ->
                          isAt c = false /\ isNameSeparator c = false) ->
  exists shown : list string,
    Forall2 capitalizedWord (word :: map snd rest) shown
    /\ deriveNameFromEmail (joinWords word rest +:+ String "@" domain)
       = String.concat " " shown.
Proof.
  intros Hseps Hclean.
  exists (map capitalize (word :: map snd rest)).
  split; [by apply capitalizedWords|].
  unfold deriveNameFromEmail.
  assert (forall c, c ∈ list_ascii_of_string (joinWords word rest) ->
                    isAt c = false) as Hlocal.
  { intros c Hc. apply joinWords_chars in Hc as [[v [Hv Hc]]|Hc].
    - destruct (Hclean v Hv) as [_ Hv']. by destruct (Hv' c Hc).
    - apply list_elem_of_fmap in Hc as [[sep next] [-> Hin]]. simpl.
      rewrite Forall_forall in Hseps. specialize (Hseps _ Hin).
      simpl in Hseps. unfold isNameSeparator in Hseps. unfold isAt.
      destruct (Ascii.eqb_spec sep "@") as [->|]; [done | done]. }
  rewrite (splitOn_clean_sep isAt _ "@" domain Hlocal eq_refl). simpl hd.
  rewrite splitOn_joinWords; [done | done |].
  intros v c Hv Hc. destruct (Hclean v Hv) as [_ Hv']. by destruct (Hv' c Hc).
Qed.

Lemma derived_name_of_words_witness :
  deriveNameFromEmail "mary-jane.o_neil@example.com" = "Mary Jane O Neil".
Proof.
  destruct (derived_name_of_words
              "mary" [("-"%char, "jane"); ("."%char, "o"); ("_"%char, "neil")]
              "example.com") as [shown [Hshown Hname]].
  - repeat constructor.
  - intros v Hv. simpl in Hv. rewrite !elem_of_cons, elem_of_nil in Hv.
    destruct Hv as [->|[->|[->|[->|[]]]]];
      (split; [ascii_string|]); intros c Hc; simpl in Hc;
      rewrite ?elem_of_cons, elem_of_nil in Hc;
      intuition (subst; done).
  - apply capitalizedWords in Hshown. subst shown. exact Hname.
Defined.


(** ** The password generator *)

Lemma length_append (a b : string) :
  String.length (a +:+ b) = String.length a + String.length b.
Proof.
  induction a as [|c a IH]; [done|].
  rewrite append_cons. simpl. by rewrite IH.
Qed.

Lemma get_in_range (s : string) (i : nat) :
  i < String.length s ->
  exists c, String.get i s = Some c /\ c ∈ list_ascii_of_string s.
Proof.
  revert i. induction s as [|d s IH]; intros i Hi; simpl in *; [lia|].
  destruct i as [|i].
  - exists d. split; [done | left].
  - destruct (IH i) as [c [Hget Hin]]; [lia|].
    exists c. split; [done | by right].
Qed.

Section PasswordLoop.

Context (charSet : string) (randomIndex : nat -> nat).
Hypothesis in_range : forall i, randomIndex i < String.length charSet.

Lemma passwordLoop_length (iterations : nat) :
  forall i password,
    String.length (passwordLoop charSet randomIndex i iterations password)
    = String.length password + iterations.
Proof.
  induction iterations as [|n IH]; intros i password; simpl; [lia|].
  rewrite IH. unfold appendCharAt.
  destruct (get_in_range charSet (randomIndex i) (in_range i))
    as [c [-> _]].
  rewrite length_append. simpl. lia.
Qed.

Lemma passwordLoop_chars (iterations : nat) :
  forall i password c,
    c ∈ list_ascii_of_string
          (passwordLoop charSet randomIndex i iterations password) ->
    c ∈ list_ascii_of_string password \/ c ∈ list_ascii_of_string charSet.
Proof.
  induction iterations as [|n IH]; intros i password c; simpl; [auto|].
  intros Hc. apply IH in Hc as [Hc|Hc]; [|by right].
  unfold appendCharAt in Hc.
  destruct (get_in_range charSet (randomIndex i) (in_range i))
    as [d [Hget Hd]].
  rewrite Hget, chars_append, elem_of_app in Hc. simpl in Hc.
  destruct Hc as [Hc|Hc]; [by left|].
  apply list_elem_of_singleton in Hc. subst c. by right.
Qed.

End PasswordLoop.

(** X17. With every drawn index inside the character set, the password
    has as many characters as the loop has iterations: the requested
    length rounded up, and none for a length of zero or less. *)
Theorem password_length (randomIndex : nat -> nat) (length : QArith_base.Q)
        (useSymbols useNumbers : bool) :
  (forall i, randomIndex i
             < String.length (charSetFor useSymbols useNumbers)) ->
  String.length (generatePassword randomIndex length useSymbols useNumbers)
  = Z.to_nat (Qround.Qceiling length).
Proof.
  intros Hrange. unfold generatePassword.
  by rewrite passwordLoop_length.
Qed.

Lemma password_length_witness :
  String.length
    (generatePassword (fun i => 7 * i mod 88) (QArith_base.inject_Z 8)
                      true true)
  = 8.
Proof.
  apply (password_length (fun i => 7 * i mod 88)
                         (QArith_base.inject_Z 8) true true).
  intros i. apply Nat.mod_upper_bound. discriminate.
Defined.

Lemma charSetFor_chars (useSymbols useNumbers : bool) (c : ascii) :
  c ∈ list_ascii_of_string (charSetFor useSymbols useNumbers)
  <-> c ∈ list_ascii_of_string (lowerCaseChars +:+ upperCaseChars)
      \/ (useNumbers = true /\ c ∈ list_ascii_of_string numberChars)
      \/ (useSymbols = true /\ c ∈ list_ascii_of_string symbolChars).
Proof.
  unfold charSetFor.
  destruct useSymbols, useNumbers; rewrite ?chars_append, ?elem_of_app;
    intuition congruence.
Qed.

(** X18. With every drawn index inside the character set, each character
    of the password is a letter, or a digit when numbers were asked for,
    or one of the listed symbols when symbols were asked for. *)
Theorem password_alphabet (randomIndex : nat -> nat) (length : QArith_base.Q)
        (useSymbols useNumbers : bool) (c : ascii) :
  (forall i, randomIndex i
             < String.length (charSetFor useSymbols useNumbers)) ->
  c ∈ list_ascii_of_string
        (generatePassword randomIndex length useSymbols useNumbers) ->
  c ∈ list_ascii_of_string (lowerCaseChars +:+ upperCaseChars)
  \/ (useNumbers = true /\ c ∈ list_ascii_of_string numberChars)
  \/ (useSymbols = true /\ c ∈ list_ascii_of_string symbolChars).
Proof.
  intros Hrange Hc. apply charSetFor_chars.
  unfold generatePassword in Hc.
  apply passwordLoop_chars in Hc as [Hc|Hc]; [|done|done].
  by apply elem_of_nil in Hc.
Qed.

Lemma password_alphabet_witness :
  "h"%char ∈ list_ascii_of_string (lowerCaseChars +:+ upperCaseChars)
  \/ (false = true /\ "h"%char ∈ list_ascii_of_string numberChars)
  \/ (false = true /\ "h"%char ∈ list_ascii_of_string symbolChars).
Proof.
  apply (password_alphabet (fun i => 7 * i mod 52)
                           (QArith_base.inject_Z 3) false false).
  - intros i. apply Nat.mod_upper_bound. discriminate.
  - vm_compute. repeat constructor.
Defined.

Lemma passwordLoop_first_char (charSet : string) (c : ascii)
      (iterations : nat) :
  String.get 0 charSet = Some c ->
  forall i password d,
    d ∈ list_ascii_of_string
          (passwordLoop charSet (fun _ => 0) i iterations password) ->
    d ∈ list_ascii_of_string password \/ d = c.
Proof.
  intros Hget. induction iterations as [|n IH]; intros i password d; simpl;
    [auto|].
  intros Hd. apply IH in Hd as [Hd|Hd]; [|by right].
  unfold appendCharAt in Hd. rewrite Hget, chars_append, elem_of_app in Hd.
  destruct Hd as [Hd|Hd]; [by left|].
  apply list_elem_of_singleton in Hd. by right.
Qed.

(** X19. Asking for numbers and symbols widens the character set and
    forces nothing: when every draw is index 0, which is inside the set,
    the password is made of the letter a alone, whatever the length and the
    two flags. *)
Theorem flags_force_no_digit_or_symbol (length : QArith_base.Q)
        (useSymbols useNumbers : bool) (c : ascii) :
  (forall i : nat, (fun _ : nat => 0) i
                   < String.length (charSetFor useSymbols useNumbers))
  /\ (c ∈ list_ascii_of_string
            (generatePassword (fun _ => 0) length useSymbols useNumbers) ->
      c = "a"%char).
Proof.
  split.
  - intros _. destruct useSymbols, useNumbers; vm_compute; lia.
  - unfold generatePassword. intros Hc.
    apply (passwordLoop_first_char _ "a"%char) in Hc as [Hc|Hc];
      [by apply elem_of_nil in Hc | done |].
    by destruct useSymbols, useNumbers.
Qed.

(** ** The checklists of the technique page *)

Lemma index_is_not_minus_one (n : nat) :
  negb (Z.eqb (Z.of_nat n) (-1)) = true.
Proof. apply negb_true_iff, Z.eqb_neq. lia. Qed.

Lemma shifted_indices (l : list Item.t) :
  forall f : nat -> nat,
    List.filter (fun index => negb (Z.eqb index (-1)))
      (imap (fun index item =>
               if Item.checked item then Z.of_nat (S (f index)) else (-1)%Z)
            l)
    = map Z.succ
        (List.filter (fun index => negb (Z.eqb index (-1)))
           (imap (fun index item =>
                    if Item.checked item then Z.of_nat (f index) else (-1)%Z)
                 l)).
Proof.
  induction l as [|x l IH]; intros f; [done|].
  rewrite !imap_cons. cbn [List.filter].
  destruct (Item.checked x).
  - rewrite !index_is_not_minus_one. cbn [map].
    rewrite Nat2Z.inj_succ. f_equal. exact (IH (f ∘ S)).
  - cbn [Z.eqb negb]. exact (IH (f ∘ S)).
Qed.

Lemma selectedIndices_cons (item : Item.t) (rest : list Item.t) :
  selectedIndices (item :: rest)
  = (if Item.checked item then [0%Z] else [])
      ++ map Z.succ (selectedIndices rest).
Proof.
  unfold selectedIndices. rewrite imap_cons. cbn [List.filter].
  rewrite <- (shifted_indices rest (fun index => index)).
  by destruct (Item.checked item).
Qed.

Lemma selectedIndices_length (items : list Item.t) :
  length (selectedIndices items) = length (List.filter Item.checked items).
Proof.
  induction items as [|x items IH]; [done|].
  rewrite selectedIndices_cons, length_app, length_map, IH. simpl.
  by destruct (Item.checked x).
Qed.

Lemma filter_length_le {A : Type} (p : A -> bool) (l : list A) :
  length (List.filter p l) <= length l.
Proof.
  induction l as [|x l IH]; simpl; [lia|]. destruct (p x); simpl; lia.
Qed.

Lemma filter_length_all {A : Type} (p : A -> bool) (l : list A) :
  length (List.filter p l) = length l <-> forall x, x ∈ l -> p x = true.
Proof.
  induction l as [|x l IH]; simpl.
  - split; [by intros _ x ?%elem_of_nil | done].
  - pose proof (filter_length_le p l). destruct (p x) eqn:Hx; simpl.
    + split.
      * intros Hlen y [->|Hy]%elem_of_cons; [done|]. apply IH; [lia | done].
      * intros Hall. f_equal. apply IH. intros y Hy. apply Hall. by right.
    + split; [lia|]. intros Hall. rewrite Hall in Hx; [done | left].
Qed.

Lemma filter_length_some {A : Type} (p : A -> bool) (l : list A) :
  0 < length (List.filter p l) <-> exists x, x ∈ l /\ p x = true.
Proof.
  induction l as [|x l IH]; simpl.
  - split; [lia | by intros [x [?%elem_of_nil _]]].
  - destruct (p x) eqn:Hx; simpl.
    + split; [|lia]. intros _. exists x. split; [left | done].
    + rewrite IH. split.
      * intros [y [Hy Hp]]. exists y. split; [by right | done].
      * intros [y [[->|Hy]%elem_of_cons Hp]]; [congruence | eauto].
Qed.

(** X20. The selected indices are the positions of the checked items, in
    increasing order, one for each checked item. *)
Theorem selected_indices_are_checked_positions (items : list Item.t) :
  (forall i, i ∈ selectedIndices items
             <-> exists n item, i = Z.of_nat n /\ items !! n = Some item
                                /\ Item.checked item = true)
  /\ Sorted.StronglySorted Z.lt (selectedIndices items)
  /\ length (selectedIndices items)
     = length (List.filter Item.checked items).
Proof.
  split; [|split; [|apply selectedIndices_length]].
  - induction items as [|x items IH]; intros i.
    + split; [by intros ?%elem_of_nil | by intros [n [item [_ [? _]]]]].
    + rewrite selectedIndices_cons, elem_of_app, list_elem_of_fmap. split.
      * intros [Hi|[j [-> Hj]]].
        -- destruct (Item.checked x) eqn:Hx; [|by apply elem_of_nil in Hi].
           apply list_elem_of_singleton in Hi. subst i. by exists 0, x.
        -- apply IH in Hj as [n [item [-> [Hn Hc]]]].
           exists (S n), item. split; [lia | done].
      * intros [[|n] [item [-> [Hn Hc]]]].
        -- simpl in Hn. injection Hn as ->. left. rewrite Hc. left.
        -- right. exists (Z.of_nat n). split; [lia|].
           apply IH. by exists n, item.
  - induction items as [|x items IH]; [constructor|].
    rewrite selectedIndices_cons.
    assert (Sorted.StronglySorted Z.lt (map Z.succ (selectedIndices items)))
      as Hrest.
    { clear -IH. induction IH as [|j l Hs IHs Hall]; [constructor|].
      simpl. constructor; [done|].
      apply Forall_fmap. eapply Forall_impl; [exact Hall|].
      intros k Hk. simpl. lia. }
    destruct (Item.checked x); [|done]. simpl. constructor; [done|].
    apply Forall_forall. intros k Hk.
    apply list_elem_of_fmap in Hk as [j [-> Hj]].
    assert (0 <= j)%Z; [|lia]. clear -Hj. revert j Hj.
    induction items as [|y items IHi]; intros j Hj;
      [by apply elem_of_nil in Hj|].
    rewrite selectedIndices_cons, elem_of_app, list_elem_of_fmap in Hj.
    destruct Hj as [Hj|[k [-> Hk]]].
    + destruct (Item.checked y); [|by apply elem_of_nil in Hj].
      apply list_elem_of_singleton in Hj. lia.
    + specialize (IHi k Hk). lia.
Qed.

(** X21. The Delete button can be used exactly when some item is checked
    and some item is not; so after Select All, whichever way it was
    switched, it cannot: with all items checked it is disabled, and with
    none checked the toolbar that holds it is not shown. *)
Theorem delete_needs_partial_selection (items : list Item.t) :
  (showActions items && negb (deleteDisabled items) = true
   <-> (exists item, item ∈ items /\ Item.checked item = true)
       /\ (exists item, item ∈ items /\ Item.checked item = false))
  /\ (items <> [] -> deleteDisabled (handleSelectAll items true) = true)
  /\ showActions (handleSelectAll items false) = false.
Proof.
  unfold showActions, deleteDisabled. split; [|split].
  - rewrite selectedIndices_length, andb_true_iff, negb_true_iff,
      andb_false_iff, Nat.ltb_lt, Nat.ltb_ge, Nat.eqb_neq.
    rewrite filter_length_some. split.
    + intros [[item [Hin Hc]] Hnot]. split; [eauto|].
      assert (~ (forall x, x ∈ items -> Item.checked x = true)) as Hnall.
      { rewrite <- filter_length_all. destruct Hnot as [Hnot|Hnot]; [|done].
        destruct items; [by apply elem_of_nil in Hin | simpl in Hnot; lia]. }
      clear -Hnall. induction items as [|x items IH].
      * exfalso. apply Hnall. by intros x ?%elem_of_nil.
      * destruct (Item.checked x) eqn:Hx.
        -- destruct IH as [item [Hin Hc]].
           { intros Hall. apply Hnall.
             intros y [->|Hy]%elem_of_cons; [done | by apply Hall]. }
           exists item. split; [by right | done].
        -- exists x. split; [left | done].
    + intros [Hsome [item [Hin Hc]]]. split; [done|]. right.
      rewrite filter_length_all. intros Hall.
      rewrite (Hall item Hin) in Hc. done.
  - intros Hne. rewrite selectedIndices_length.
    apply andb_true_iff. split.
    + apply Nat.ltb_lt. unfold handleSelectAll. rewrite length_map.
      destruct items; [done | simpl; lia].
    + apply Nat.eqb_eq, filter_length_all. intros x Hx.
      unfold handleSelectAll in Hx.
      apply list_elem_of_fmap in Hx as [y [-> _]]. done.
  - rewrite selectedIndices_length. apply Nat.ltb_ge.
    assert (length (List.filter Item.checked (handleSelectAll items false))
            = 0) as ->; [|lia].
    induction items as [|x items IH]; [done | exact IH].
Qed.

Lemma delete_needs_partial_selection_witness :
  deleteDisabled
    (handleSelectAll [Item.mk "a" "Recruit users" false;
                      Item.mk "b" "Book a room" true] true)
  = true.
Proof.
  apply (delete_needs_partial_selection
           [Item.mk "a" "Recruit users" false;
            Item.mk "b" "Book a room" true]).
  discriminate.
Defined.

(** ** The recommendation list of the project page *)

(** X22. A result of the engine is never shown as "No techniques to
    display", and one of its stages carries the note that nothing is
    recommended exactly when no catalog technique filed under that stage
    meets all five criteria. *)
Theorem stage_note_iff_no_match (allTechniques : list TechniqueDetail)
        (req : Requirement) (recs : Recommendations) :
  getFilteredTechniques allTechniques (Some req) = Normal recs ->
  nothingToDisplay (Some recs) = false
  /\ forall key stageTechs,
       recs !! key = Some stageTechs ->
       (stageHasTechniques stageTechs = false
        <-> forall tech, tech ∈ allTechniques -> stage tech = key ->
                         allCriteria req tech = false).
Proof.
  intros Hrun.
  destruct (getFilteredTechniques_result req _ _ Hrun) as [_ Hlook].
  split.
  - simpl. apply Nat.eqb_neq. intros Hsize.
    apply map_size_empty_iff in Hsize. subst recs.
    specialize (Hlook "Discover"). by rewrite lookup_empty in Hlook.
  - intros key stageTechs Hkey. rewrite Hlook in Hkey.
    destruct (includes allStages key); [|done]. injection Hkey as <-.
    unfold stageHasTechniques. rewrite Nat.ltb_ge. split.
    + intros Hlen tech Hin Hs. apply not_true_is_false. intros Hc.
      assert (name tech ∈ map Rec.name (stageList req key allTechniques))
        as Hname by (apply stageList_names; eauto 6).
      destruct (stageList req key allTechniques); [|simpl in Hlen; lia].
      by apply elem_of_nil in Hname.
    + intros Hnone.
      destruct (stageList req key allTechniques) as [|e l] eqn:Hlist;
        [simpl; lia|].
      assert (Rec.name e ∈ map Rec.name (stageList req key allTechniques))
        as Hname by (rewrite Hlist; simpl; left).
      apply stageList_names in Hname as [tech [Hin [Hs [_ Hc]]]].
      rewrite (Hnone tech Hin Hs) in Hc. done.
Qed.

Lemma stage_note_iff_no_match_witness :
  nothingToDisplay (Some initialRecommendations) = false.
Proof.
  destruct (stage_note_iff_no_match [deliverMobile] desktopRequirement
              initialRecommendations) as [Hshown _].
  - vm_compute. reflexivity.
  - exact Hshown.
Defined.
